(** * mmapio: a uniform handle for memory-mapped files

    A shallow embedding of [mmapio.c] / [mmapio.h] (the revision with the
    Unix and the Win32 backend and the [bequeath] mode character).

    - integers of the C code are [Z] with the wrap-around of [size_t]
      and the conversion to [off_t] written out (LP64 / Win64: 64 bits);
    - the mode text is a NUL-terminated C string, modelled as [string];
    - the operating system is an oracle record, one per backend, that
      answers each native call; the calls with an effect on resources
      are appended to a log, and [return NULL] is the failure of a small
      log-and-failure monad;
    - the two backends live in [Module Unix] and [Module Win32], the two
      branches of [#if MMAPIO_OS == ...]. *)

From Stdlib Require Import ZArith List Ascii String Bool Lia Permutation.
Import ListNotations.
Local Open Scope Z_scope.

(** ** Machine integers *)

(** [~(size_t)0u] *)
Definition SIZE_MAX : Z := 2 ^ 64 - 1.

(** Arithmetic in [size_t], and conversion to [size_t], wrap modulo 2^64. *)
Definition size_t (x : Z) : Z := x mod 2 ^ 64.

(** Largest value of the signed file-offset type [off_t]. *)
Definition OFF_MAX : Z := 2 ^ 63 - 1.

(** The conversion [(off_t)x] of a [size_t] value: the same 64 bits read
    as a signed number. *)
Definition off_t (x : Z) : Z := (x + 2 ^ 63) mod 2 ^ 64 - 2 ^ 63.

(** The values a [size_t] variable can hold. *)
Definition in_size_t (x : Z) : Prop := 0 <= x <= SIZE_MAX.

(** The null pointer, as an address. *)
Definition NULL : Z := 0.

(** The [n] bytes from address [p] on lie in the address space, the
    address behind them included: what a mapping that exists does. *)
Definition in_address_space (p n : Z) : Prop := 0 <= p /\ p + n <= SIZE_MAX.

(** ** Mode characters and the mode tag ([mmapio.h], [mmapio.c]) *)

(** [enum mmapio_mode] *)
Definition mmapio_mode_read : ascii := "r".      (* 0x72 *)
Definition mmapio_mode_write : ascii := "w".     (* 0x77 *)
Definition mmapio_mode_end : ascii := "e".       (* 0x65 *)
Definition mmapio_mode_private : ascii := "p".   (* 0x70 *)
Definition mmapio_mode_bequeath : ascii := "q".  (* 0x71 *)

(** The character 0: the string terminator and the cleared flag. *)
Definition NUL : ascii := zero.

(** [struct mmapio_mode_tag]; the field [end] is spelled [end_]. *)
Record mmapio_mode_tag : Type := mk_mode_tag {
  mode : ascii;
  end_ : ascii;
  privy : ascii;
  bequeath : ascii
}.

(** The truth value of a [char] used as a condition. *)
Definition is_set (c : ascii) : bool := negb (Ascii.eqb c NUL).

(** The [switch] of [mmapio_mode_parse] for a character that is not NUL. *)
Definition mode_switch (c : ascii) (out : mmapio_mode_tag) : mmapio_mode_tag :=
  if Ascii.eqb c mmapio_mode_write then
    mk_mode_tag mmapio_mode_write (end_ out) (privy out) (bequeath out)
  else if Ascii.eqb c mmapio_mode_read then
    mk_mode_tag mmapio_mode_read (end_ out) (privy out) (bequeath out)
  else if Ascii.eqb c mmapio_mode_end then
    mk_mode_tag (mode out) mmapio_mode_end (privy out) (bequeath out)
  else if Ascii.eqb c mmapio_mode_private then
    mk_mode_tag (mode out) (end_ out) mmapio_mode_private (bequeath out)
  else if Ascii.eqb c mmapio_mode_bequeath then
    mk_mode_tag (mode out) (end_ out) (privy out) mmapio_mode_bequeath
  else out.

(** The loop [for (i = 0; i < 8; ++i)] with [n] iterations left; the end
    of the [string] is the terminating NUL of the C string. *)
Fixpoint mode_parse_loop (n : nat) (mmode : string) (out : mmapio_mode_tag)
  : mmapio_mode_tag :=
  match n with
  | O => out
  | S n' =>
      match mmode with
      | EmptyString => out
      | String c rest =>
          if Ascii.eqb c NUL then out
          else mode_parse_loop n' rest (mode_switch c out)
      end
  end.

Definition mmapio_mode_parse (mmode : string) : mmapio_mode_tag :=
  mode_parse_loop 8 mmode (mk_mode_tag NUL NUL NUL NUL).

(** The characters of a mode text. *)
Definition chars (s : string) : list ascii := list_ascii_of_string s.

(** A mode text names at most one of the two access modes. *)
Definition one_access (s : string) : Prop :=
  ~ (In mmapio_mode_read (chars s) /\ In mmapio_mode_write (chars s)).

(** Whether a character occurs in a list. *)
Definition has (c : ascii) (cs : list ascii) : bool :=
  existsb (Ascii.eqb c) cs.

(** The whole text run through the switch, without the bound of 8. *)
Definition scan (cs : list ascii) (out : mmapio_mode_tag) : mmapio_mode_tag :=
  fold_left (fun o c => mode_switch c o) cs out.

(** ** Native calls: a log of effects and the [NULL] return *)

(** A computation appends the native calls it makes to a log and either
    yields a value or returns [NULL] to the caller of the open function. *)
Definition M (Ev A : Type) : Type := list Ev -> option A * list Ev.

Definition ret {Ev A : Type} (a : A) : M Ev A := fun log => (Some a, log).

Definition bind {Ev A B : Type} (m : M Ev A) (k : A -> M Ev B) : M Ev B :=
  fun log =>
    match m log with
    | (Some a, log') => k a log'
    | (None, log') => (None, log')
    end.

Definition emit {Ev : Type} (e : Ev) : M Ev unit :=
  fun log => (Some tt, log ++ [e]).

Definition return_NULL {Ev A : Type} : M Ev A := fun log => (None, log).

(** A call started with an empty log: the result and the calls made. *)
Definition run {Ev A : Type} (m : M Ev A) : option A * list Ev := m [].

Declare Scope mm_scope.
Delimit Scope mm_scope with mm.
Notation "x <- m ;; k" := (bind m (fun x => k))
  (at level 61, m at next level, right associativity) : mm_scope.
Notation "m ;; k" := (bind m (fun _ => k))
  (at level 61, right associativity) : mm_scope.

(** ** The interface [struct mmapio_i] and the helper functions *)

(** The four function pointers of [struct mmapio_i], together with the
    backend structure [self] the interface is the first member of (the
    casts [(struct mmapio_unix * )m] and [(struct mmapio_win32 * )m]). *)
Record mmapio_i (S Ev : Type) : Type := mk_mmapio_i {
  mmi_dtor : S -> M Ev unit;
  mmi_acquire : S -> Z;
  mmi_release : S -> Z -> M Ev unit;
  mmi_length : S -> Z;
  self : S
}.
Arguments mk_mmapio_i {S Ev}.
Arguments mmi_dtor {S Ev}.
Arguments mmi_acquire {S Ev}.
Arguments mmi_release {S Ev}.
Arguments mmi_length {S Ev}.
Arguments self {S Ev}.

Definition mmapio_close {S Ev : Type} (m : mmapio_i S Ev) : M Ev unit :=
  mmi_dtor m (self m).

Definition mmapio_acquire {S Ev : Type} (m : mmapio_i S Ev) : Z :=
  mmi_acquire m (self m).

Definition mmapio_release {S Ev : Type} (m : mmapio_i S Ev) (p : Z) : M Ev unit :=
  mmi_release m (self m) p.

Definition mmapio_length {S Ev : Type} (m : mmapio_i S Ev) : Z :=
  mmi_length m (self m).

(** ** The Unix backend ([MMAPIO_OS == MMAPIO_OS_UNIX]) *)

Module Unix.

(** Constants of [<fcntl.h>], [<sys/mman.h>] and [<errno.h>], which are
    not part of the repository; the values are those of Linux. *)
Definition O_RDONLY : Z := 0.
Definition O_RDWR : Z := 2.
Definition O_CLOEXEC : Z := 524288.
Definition FD_CLOEXEC : Z := 1.
Definition PROT_READ : Z := 1.
Definition PROT_WRITE : Z := 2.
Definition MAP_SHARED : Z := 1.
Definition MAP_PRIVATE : Z := 2.
Definition ERANGE : Z := 34.

(** [MAP_FAILED], that is [(void * )-1]: what POSIX [mmap] returns when
    it fails. The source never names it. *)
Definition MAP_FAILED : Z := SIZE_MAX.

(** [struct mmapio_unix] without its [base]. *)
Record mmapio_unix : Type := mk_unix {
  ptr : Z;
  len : Z;
  shift : Z;
  fd : Z
}.

(** The native calls that touch a resource. *)
Inductive event : Type :=
| Open (nm : string) (flags : Z)
| SetFd (fd flags : Z)
| Mmap (length prot flags fd offset : Z)
| Munmap (addr length : Z)
| Close (fd : Z)
| Free
| SetErrno (e : Z).

(** What the system answers. *)
Record os : Type := mk_os {
  (** [open(nm, flags)]: a descriptor, or -1 *)
  sys_open : string -> Z -> Z;
  (** [wcsrtombs] in the current locale: [None] is [(size_t)-1] *)
  sys_wcsrtombs : list Z -> option string;
  (** whether [calloc(n, sizeof(char))] yields storage *)
  sys_calloc_name : Z -> bool;
  (** whether [calloc(1, sizeof(struct mmapio_unix))] yields storage *)
  sys_calloc : bool;
  (** [fcntl(fd, F_GETFD)] *)
  sys_fcntl_getfd : Z -> Z;
  (** [fcntl(fd, F_SETFD, flags)] *)
  sys_fcntl_setfd : Z -> Z -> Z;
  (** [fstat(fd, &fsi)]: [st_size] when the result is 0 *)
  sys_fstat : Z -> option Z;
  (** [sysconf(_SC_PAGE_SIZE)], a [long] *)
  sys_page_size : Z;
  (** [mmap(NULL, length, prot, flags, fd, offset)]: the pointer returned *)
  sys_mmap : Z -> Z -> Z -> Z -> Z -> Z
}.

Section Backend.
Variable sys : os.
Local Open Scope mm_scope.

Definition mmapio_wctomb (nm : list Z) : option string :=
  match sys_wcsrtombs sys nm with
  | None => None
  | Some mb =>
      if sys_calloc_name sys (size_t (Z.of_nat (String.length mb) + 1))
      then Some mb else None
  end.

(** The build in which [<fcntl.h>] defines [O_CLOEXEC], as on Linux;
    for the other build see [mmapio_mode_rw_cvt_build] below. *)
Definition mmapio_mode_rw_cvt (mmode : ascii) : Z :=
  let fast_no_bequeath := O_CLOEXEC in
  if Ascii.eqb mmode mmapio_mode_write then Z.lor O_RDWR fast_no_bequeath
  else if Ascii.eqb mmode mmapio_mode_read then Z.lor O_RDONLY fast_no_bequeath
  else 0.

(** [mmapio_mode_rw_cvt] in either build: [Some v] where [<fcntl.h>]
    defines [O_CLOEXEC] as [v], [None] where it does not and
    [fast_no_bequeath] is 0. [mmapio_mode_rw_cvt] above is the build
    with [O_CLOEXEC]. *)
Definition mmapio_mode_rw_cvt_build (o_cloexec : option Z) (mmode : ascii)
  : Z :=
  let fast_no_bequeath :=
    match o_cloexec with Some v => v | None => 0 end in
  if Ascii.eqb mmode mmapio_mode_write then Z.lor O_RDWR fast_no_bequeath
  else if Ascii.eqb mmode mmapio_mode_read then Z.lor O_RDONLY fast_no_bequeath
  else 0.

Definition mmapio_mode_prot_cvt (mmode : ascii) : Z :=
  if Ascii.eqb mmode mmapio_mode_write then Z.lor PROT_WRITE PROT_READ
  else if Ascii.eqb mmode mmapio_mode_read then PROT_READ
  else 0.

Definition mmapio_mode_flag_cvt (mprivy : ascii) : Z :=
  if is_set mprivy then MAP_PRIVATE else MAP_SHARED.

Definition mmapio_file_size_e (fd : Z) : Z :=
  match sys_fstat sys fd with
  | None => 0
  | Some st_size => size_t st_size
  end.

Definition mmapio_mmi_dtor (mu : mmapio_unix) : M event unit :=
  emit (Munmap (ptr mu) (len mu));;
  emit (Close (fd mu));;
  emit Free.

(** Pointer arithmetic on the 64-bit address. *)
Definition mmapio_mmi_acquire (mu : mmapio_unix) : Z :=
  size_t (ptr mu + shift mu).

Definition mmapio_mmi_release (mu : mmapio_unix) (p : Z) : M event unit :=
  ret tt.

Definition mmapio_mmi_length (mu : mmapio_unix) : Z :=
  size_t (len mu - shift mu).

(** The block "assign the close-on-exec flag": the value of
    [bequeath_break], the [F_SETFD] call being logged. *)
Definition assign_cloexec (fd : Z) (mt : mmapio_mode_tag) : M event bool :=
  let old_flags := sys_fcntl_getfd sys fd in
  if old_flags <? 0 then ret true
  else if is_set (bequeath mt) then
    let flags := Z.land old_flags (Z.lnot FD_CLOEXEC) in
    emit (SetFd fd flags);; ret (sys_fcntl_setfd sys fd flags <? 0)
  else
    let flags := Z.lor old_flags FD_CLOEXEC in
    emit (SetFd fd flags);; ret (sys_fcntl_setfd sys fd flags <? 0).

(** The block "fix map size": the value of [sz] after it. *)
Definition fix_map_size (fd : Z) (mt : mmapio_mode_tag) (sz off : Z) : Z :=
  if is_set (end_ mt) then
    let xsz := mmapio_file_size_e fd in
    if xsz <? off then 0 (* to fail *)
    else size_t (xsz - off)
  else sz.

(** The block "fix to page sizes": [(fullsize, fullshift, fulloff)]. *)
Definition fix_to_page_sizes (fd sz off : Z) : M event (Z * Z * Z) :=
  let psize := sys_page_size sys in
  let fullsize := sz in
  if 0 <? psize then
    (* adjust the offset *)
    let fullshift := off mod psize in
    let fulloff := off_t (size_t (off - fullshift)) in
    if size_t (SIZE_MAX - sz) <=? fullshift then
      (* range fix failure *)
      emit (Close fd);; emit Free;; emit (SetErrno ERANGE);; return_NULL
    else ret (size_t (fullsize + fullshift), fullshift, fulloff)
  else ret (fullsize, 0, off_t off).

(** The block "initialize the interface": the four functions of this
    backend around the filled structure. *)
Definition initialize (mu : mmapio_unix) : mmapio_i mmapio_unix event :=
  mk_mmapio_i mmapio_mmi_dtor mmapio_mmi_acquire
    mmapio_mmi_release mmapio_mmi_length mu.

(** The call of [mmap], its check and the block "initialize the
    interface". *)
Definition map_and_initialize (fd : Z) (mt : mmapio_mode_tag)
  (fullsize fullshift fulloff : Z) : M event (mmapio_i mmapio_unix event) :=
  let prot := mmapio_mode_prot_cvt (mode mt) in
  let flags := mmapio_mode_flag_cvt (privy mt) in
  emit (Mmap fullsize prot flags fd fulloff);;
  let ptr := sys_mmap sys fullsize prot flags fd fulloff in
  if ptr =? NULL then
    emit (Close fd);; emit Free;; return_NULL
  else
    ret (initialize (mk_unix ptr fullsize fullshift fd)).

Definition mmapio_open_rest (fd : Z) (mt : mmapio_mode_tag) (sz off : Z)
  : M event (mmapio_i mmapio_unix event) :=
  if negb (sys_calloc sys) then
    emit (Close fd);; return_NULL
  else
    bequeath_break <- assign_cloexec fd mt;;
    if (bequeath_break : bool) then
      emit (Close fd);; emit Free;; return_NULL
    else
      let sz := fix_map_size fd mt sz off in
      fixed <- fix_to_page_sizes fd sz off;;
      let '(fullsize, fullshift, fulloff) := fixed in
      map_and_initialize fd mt fullsize fullshift fulloff.

Definition mmapio_open (nm : string) (mode_text : string) (sz off : Z)
  : M event (mmapio_i mmapio_unix event) :=
  let mt := mmapio_mode_parse mode_text in
  let flags := mmapio_mode_rw_cvt (mode mt) in
  emit (Open nm flags);;
  let fd := sys_open sys nm flags in
  if fd =? -1 then (* can't open file, so *) return_NULL
  else mmapio_open_rest fd mt sz off.

(** The name is a byte string; on Unix it is passed on as it is. *)
Definition mmapio_u8open (nm : string) (mode_text : string) (sz off : Z)
  : M event (mmapio_i mmapio_unix event) :=
  let mt := mmapio_mode_parse mode_text in
  let flags := mmapio_mode_rw_cvt (mode mt) in
  emit (Open nm flags);;
  let fd := sys_open sys nm flags in
  if fd =? -1 then return_NULL
  else mmapio_open_rest fd mt sz off.

Definition mmapio_wopen (nm : list Z) (mode_text : string) (sz off : Z)
  : M event (mmapio_i mmapio_unix event) :=
  let mt := mmapio_mode_parse mode_text in
  match mmapio_wctomb nm with
  | None =>
      (* conversion failure, so give up; [free(mbfn)] is [free(NULL)]
         here and releases nothing *)
      return_NULL
  | Some mbfn =>
      let flags := mmapio_mode_rw_cvt (mode mt) in
      emit (Open mbfn flags);;
      let fd := sys_open sys mbfn flags in
      (* [free(mbfn)] *)
      emit Free;;
      if fd =? -1 then return_NULL
      else mmapio_open_rest fd mt sz off
  end.

End Backend.

(** A handle obtained from one of the three open functions. *)
Inductive opened (sys : os) (mode_text : string) (sz off : Z)
  (m : mmapio_i mmapio_unix event) : Prop :=
| by_open (nm : string) (log : list event) :
    run (mmapio_open sys nm mode_text sz off) = (Some m, log) ->
    opened sys mode_text sz off m
| by_u8open (nm : string) (log : list event) :
    run (mmapio_u8open sys nm mode_text sz off) = (Some m, log) ->
    opened sys mode_text sz off m
| by_wopen (nm : list Z) (log : list event) :
    run (mmapio_wopen sys nm mode_text sz off) = (Some m, log) ->
    opened sys mode_text sz off m.

(** The mapping calls of a log: length and offset of each. *)
Definition mapping_calls (log : list event) : list (Z * Z) :=
  flat_map (fun e => match e with
                     | Mmap length _ _ _ offset => [(length, offset)]
                     | _ => []
                     end) log.

End Unix.

(** ** The Win32 backend ([MMAPIO_OS == MMAPIO_OS_WIN32]) *)

Module Win32.

(** Constants of [<windows.h>], [<limits.h>] and [<errno.h>], which are
    not part of the repository. *)
Definition GENERIC_READ : Z := 0x80000000.
Definition GENERIC_WRITE : Z := 0x40000000.
Definition PAGE_READONLY : Z := 2.
Definition PAGE_READWRITE : Z := 4.
Definition FILE_MAP_COPY : Z := 1.
Definition FILE_MAP_WRITE : Z := 2.
Definition FILE_MAP_READ : Z := 4.
Definition INVALID_HANDLE_VALUE : Z := SIZE_MAX.
Definition UINT_MAX : Z := 2 ^ 32 - 1.
Definition ERANGE : Z := 34.
Definition MMAPIO_EILSEQ : Z := 42.

(** Arithmetic in [unsigned long], 32 bits on Windows. *)
Definition ulong (x : Z) : Z := x mod 2 ^ 32.

(** The conversion [(wchar_t)x]: a UTF-16 code unit. *)
Definition wchar_t (x : Z) : Z := x mod 2 ^ 16.

(** [struct mmapio_win32] without its [base]. *)
Record mmapio_win32 : Type := mk_win32 {
  ptr : Z;
  len : Z;
  shift : Z;
  fmd : Z;
  fd : Z
}.

(** The native calls that touch a resource. *)
Inductive event : Type :=
| CreateFile (access : Z) (inherit : bool)
| CreateFileMapping (fd : Z) (inherit : bool) (protect high low : Z)
| MapView (fmd access high low bytes : Z)
| UnmapView (addr : Z)
| CloseHandle (h : Z)
| Free
| SetErrno (e : Z).

(** What the system answers. *)
Record os : Type := mk_os {
  (** [CreateFileA(nm, access, ..., &cfsa, OPEN_ALWAYS, ...)], with the
      [bInheritHandle] of [cfsa]: a handle, or [INVALID_HANDLE_VALUE] *)
  sys_CreateFileA : string -> Z -> bool -> Z;
  (** [CreateFileW], the name in UTF-16 code units *)
  sys_CreateFileW : list Z -> Z -> bool -> Z;
  (** whether [calloc(n, sizeof(wchar_t))] yields storage *)
  sys_calloc_name : Z -> bool;
  (** whether [calloc(1, sizeof(struct mmapio_win32))] yields storage *)
  sys_calloc : bool;
  (** [GetFileSizeEx(fd, &sz)]: [sz.QuadPart] when the call succeeds *)
  sys_GetFileSizeEx : Z -> option Z;
  (** [dwAllocationGranularity] of [GetSystemInfo], a [DWORD] *)
  sys_granularity : Z;
  (** [CreateFileMappingA(fd, &cfmsa, protect, high, low, NULL)]: a
      handle, or [NULL] *)
  sys_CreateFileMappingA : Z -> bool -> Z -> Z -> Z -> Z;
  (** [MapViewOfFile(fmd, access, high, low, bytes)]: a pointer, or [NULL] *)
  sys_MapViewOfFile : Z -> Z -> Z -> Z -> Z -> Z
}.

(** *** The UTF-8 decoder *)

(** [*(p+i)]: behind the bytes of the name stands its terminating NUL. *)
Definition peek (p : list Z) (i : nat) : Z := nth i p 0.

(** [out[n] = v] on the buffer [out]; nothing is written outside it. *)
Fixpoint poke (out : list Z) (n : nat) (v : Z) : list Z :=
  match out, n with
  | [], _ => []
  | _ :: rest, O => v :: rest
  | x :: rest, S n' => x :: poke rest n' v
  end.

(** [if (out != NULL) out[n] = v;] *)
Definition store (out : option (list Z)) (n v : Z) : option (list Z) :=
  option_map (fun buf => poke buf (Z.to_nat n) v) out.

(** The loop "check extension codes", [for (i = 0; i < k; ++i)], from
    [i] on with [k] rounds left: the value of [qv], or [None] for
    [return MMAPIO_EILSEQ]. *)
Fixpoint extension_codes (k i : nat) (p : list Z) (qv : Z) : option Z :=
  match k with
  | O => Some qv
  | S k' =>
      let v1 := peek p i in
      if (v1 <? 0x80) || (0xC0 <=? v1) then None
      else extension_codes k' (S i) p (ulong (Z.lor (Z.shiftl qv 6) (Z.land v1 63)))
  end.

(** What [mmapio_u8towc_shim] leaves behind: its return value, the value
    stored to [*outlen] if any, and the buffer [out]. *)
Record shim_result : Type := mk_shim {
  shim_errno : Z;
  shim_outlen : option Z;
  shim_out : option (list Z)
}.

Definition sz_max : Z := UINT_MAX / 2 - 4.

(** The loop [for (p = nm; *p && n < sz_max; ++p)]; [p] is the rest of
    the name. [fuel] bounds the rounds, [None] says it ran out. *)
Fixpoint u8towc_loop (fuel : nat) (p : list Z) (n : Z) (out : option (list Z))
  : option shim_result :=
  match fuel with
  | O => None
  | S fuel' =>
      match p with
      | [] => Some (mk_shim 0 (Some n) out)
      | v :: rest =>
          if (v =? 0) || negb (n <? sz_max) then Some (mk_shim 0 (Some n) out)
          else if sz_max <=? n then Some (mk_shim ERANGE None out)
          else if v <? 0x80 then
            (* Latin-1 compatibility *)
            u8towc_loop fuel' rest (n + 1) (store out n v)
          else if v <? 0xC0 then Some (mk_shim MMAPIO_EILSEQ None out)
          else if v <? 0xE0 then
            match extension_codes 1 0 p (Z.land v 31) with
            | None => Some (mk_shim MMAPIO_EILSEQ None out)
            | Some qv =>
                u8towc_loop fuel' (skipn 1 rest) (n + 1)
                  (store out n (wchar_t qv))
            end
          else if v <? 0xF0 then
            match extension_codes 2 0 p (Z.land v 15) with
            | None => Some (mk_shim MMAPIO_EILSEQ None out)
            | Some qv =>
                u8towc_loop fuel' (skipn 2 rest) (n + 1)
                  (store out n (wchar_t qv))
            end
          else if v <? 0xF8 then
            match extension_codes 3 0 p (Z.land v 3) with
            | None => Some (mk_shim MMAPIO_EILSEQ None out)
            | Some qv =>
                if 0x10FFFF <=? qv then Some (mk_shim MMAPIO_EILSEQ None out)
                else
                  let qv' := ulong (qv - 0x10000) in
                  let hi := wchar_t (Z.lor 0xD800 (Z.land (Z.shiftr qv' 10) 1023)) in
                  let lo := wchar_t (Z.lor 0xDC00 (Z.land qv' 1023)) in
                  u8towc_loop fuel' (skipn 3 rest) (n + 2)
                    (store (store out n hi) (n + 1) lo)
            end
          else Some (mk_shim MMAPIO_EILSEQ None out)
      end
  end.

(** One round for each byte of the name and one for its terminator. *)
Definition mmapio_u8towc_shim (nm : list Z) (out : option (list Z))
  : option shim_result :=
  u8towc_loop (S (List.length nm)) nm 0 out.

Section Backend.
Variable sys : os.
Local Open Scope mm_scope.

Definition mmapio_mode_rw_cvt (mmode : ascii) : Z :=
  if Ascii.eqb mmode mmapio_mode_write then Z.lor GENERIC_READ GENERIC_WRITE
  else if Ascii.eqb mmode mmapio_mode_read then GENERIC_READ
  else 0.

(** The two passes: the length with a NULL buffer, then the fill of a
    zeroed buffer of [ns+1] units; [None] is the NULL return. *)
Definition mmapio_u8towc (nm : list Z) : option (list Z) :=
  match mmapio_u8towc_shim nm None with
  | None => None
  | Some r1 =>
      if negb (shim_errno r1 =? 0) then
        (* conversion error caused by bad sequence, so *) None
      else
        let ns := match shim_outlen r1 with Some n => n | None => 0 end in
        if sys_calloc_name sys (size_t (ns + 1)) then
          let zeroed := repeat 0 (Z.to_nat (ns + 1)) in
          match mmapio_u8towc_shim nm (Some zeroed) with
          | None => None
          | Some r2 =>
              let ns := match shim_outlen r2 with Some n => n | None => ns end in
              store (shim_out r2) ns 0
          end
        else None
  end.

Definition mmapio_file_size_e (fd : Z) : Z :=
  match sys_GetFileSizeEx sys fd with
  | Some quad => size_t quad
  | None => 0
  end.

Definition mmapio_mode_prot_cvt (mmode : ascii) : Z :=
  if Ascii.eqb mmode mmapio_mode_write then PAGE_READWRITE
  else if Ascii.eqb mmode mmapio_mode_read then PAGE_READONLY
  else 0.

Definition mmapio_mode_access_cvt (mt : mmapio_mode_tag) : Z :=
  if Ascii.eqb (mode mt) mmapio_mode_write then
    let flags := Z.lor FILE_MAP_READ FILE_MAP_WRITE in
    if is_set (privy mt) then Z.lor flags FILE_MAP_COPY else flags
  else if Ascii.eqb (mode mt) mmapio_mode_read then
    let flags := FILE_MAP_READ in
    if is_set (privy mt) then Z.lor flags FILE_MAP_COPY else flags
  else 0.

Definition mmapio_mmi_dtor (mu : mmapio_win32) : M event unit :=
  emit (UnmapView (ptr mu));;
  emit (CloseHandle (fmd mu));;
  emit (CloseHandle (fd mu));;
  emit Free.

(** Pointer arithmetic on the 64-bit address. *)
Definition mmapio_mmi_acquire (mu : mmapio_win32) : Z :=
  size_t (ptr mu + shift mu).

Definition mmapio_mmi_release (mu : mmapio_win32) (p : Z) : M event unit :=
  ret tt.

Definition mmapio_mmi_length (mu : mmapio_win32) : Z :=
  size_t (len mu - shift mu).

(** [(DWORD)((x>>32)&0xFFffFFff)] and [(DWORD)(x&0xFFffFFff)] *)
Definition high_dword (x : Z) : Z := Z.land (Z.shiftr x 32) 0xFFFFFFFF.
Definition low_dword (x : Z) : Z := Z.land x 0xFFFFFFFF.

(** The block "fix map size" and the zero-size check after it: the value
    of [sz], or the rejection. *)
Definition fix_map_size (fd : Z) (mt : mmapio_mode_tag) (size_clamp sz off : Z)
  : M event Z :=
  if is_set (end_ mt) then
    let xsz := size_clamp in
    if xsz <? off then
      emit (CloseHandle fd);; emit Free;; return_NULL
    else ret (size_t (xsz - off))
  else if sz =? 0 then
    (* reject non-ending zero parameter *)
    emit (CloseHandle fd);; emit Free;; return_NULL
  else ret sz.

(** The block "fix to allocation granularity":
    [(fullsize, fullshift, fulloff, extended_size)]. *)
Definition fix_to_granularity (fd sz off : Z) : M event (Z * Z * Z * Z) :=
  let psize := sys_granularity sys in
  let fullsize := sz in
  if 0 <? psize then
    (* adjust the offset *)
    let fullshift := off mod psize in
    let fulloff := size_t (off - fullshift) in
    if size_t (SIZE_MAX - sz) <=? fullshift then
      (* range fix failure *)
      emit (CloseHandle fd);; emit Free;; emit (SetErrno ERANGE);; return_NULL
    else
      let fullsize := size_t (fullsize + fullshift) in
      (* adjust the size *)
      let size_shift := fullsize mod psize in
      let extended_size :=
        if 0 <? size_shift then size_t (fullsize + size_t (psize - size_shift))
        else fullsize in
      ret (fullsize, fullshift, fulloff, extended_size)
  else ret (fullsize, 0, off, sz).

(** The block "initialize the interface": the four functions of this
    backend around the filled structure. *)
Definition initialize (mu : mmapio_win32) : mmapio_i mmapio_win32 event :=
  mk_mmapio_i mmapio_mmi_dtor mmapio_mmi_acquire
    mmapio_mmi_release mmapio_mmi_length mu.

(** The calls of [CreateFileMappingA] and [MapViewOfFile], their checks
    and the block "initialize the interface". *)
Definition map_and_initialize (fd : Z) (mt : mmapio_mode_tag)
  (size_clamp fullsize fullshift fulloff extended_size : Z)
  : M event (mmapio_i mmapio_win32 event) :=
  (* prepare the security attributes *)
  let bInheritHandle := is_set (bequeath mt) in
  (* create the file mapping object, its size clamped to end of file *)
  let fullextent :=
    if size_t (extended_size + fulloff) <? size_clamp
    then size_t (extended_size + fulloff)
    else size_clamp in
  let protect := mmapio_mode_prot_cvt (mode mt) in
  emit (CreateFileMapping fd bInheritHandle protect
          (high_dword fullextent) (low_dword fullextent));;
  let fmd := sys_CreateFileMappingA sys fd bInheritHandle protect
               (high_dword fullextent) (low_dword fullextent) in
  if fmd =? NULL then
    (* file mapping failed *)
    emit (CloseHandle fd);; emit Free;; return_NULL
  else
    let access := mmapio_mode_access_cvt mt in
    emit (MapView fmd access (high_dword fulloff) (low_dword fulloff) fullsize);;
    let ptr := sys_MapViewOfFile sys fmd access
                 (high_dword fulloff) (low_dword fulloff) fullsize in
    if ptr =? NULL then
      emit (CloseHandle fmd);; emit (CloseHandle fd);; emit Free;; return_NULL
    else
      ret (initialize (mk_win32 ptr fullsize fullshift fmd fd)).

Definition mmapio_open_rest (fd : Z) (mt : mmapio_mode_tag) (sz off : Z)
  : M event (mmapio_i mmapio_win32 event) :=
  let size_clamp := mmapio_file_size_e fd in
  if negb (sys_calloc sys) then
    emit (CloseHandle fd);; return_NULL
  else
    sz <- fix_map_size fd mt size_clamp sz off;;
    fixed <- fix_to_granularity fd sz off;;
    let '(fullsize, fullshift, fulloff, extended_size) := fixed in
    map_and_initialize fd mt size_clamp fullsize fullshift fulloff extended_size.

Definition mmapio_open (nm : string) (mode_text : string) (sz off : Z)
  : M event (mmapio_i mmapio_win32 event) :=
  let mt := mmapio_mode_parse mode_text in
  let bInheritHandle := is_set (bequeath mt) in
  let access := mmapio_mode_rw_cvt (mode mt) in
  emit (CreateFile access bInheritHandle);;
  let fd := sys_CreateFileA sys nm access bInheritHandle in
  if fd =? INVALID_HANDLE_VALUE then (* can't open file, so *) return_NULL
  else mmapio_open_rest fd mt sz off.

Definition mmapio_u8open (nm : list Z) (mode_text : string) (sz off : Z)
  : M event (mmapio_i mmapio_win32 event) :=
  let mt := mmapio_mode_parse mode_text in
  let bInheritHandle := is_set (bequeath mt) in
  match mmapio_u8towc nm with
  | None => (* conversion failure, so give up *) return_NULL
  | Some wcfn =>
      let access := mmapio_mode_rw_cvt (mode mt) in
      emit (CreateFile access bInheritHandle);;
      let fd := sys_CreateFileW sys wcfn access bInheritHandle in
      (* [free(wcfn)] *)
      emit Free;;
      if fd =? INVALID_HANDLE_VALUE then return_NULL
      else mmapio_open_rest fd mt sz off
  end.

Definition mmapio_wopen (nm : list Z) (mode_text : string) (sz off : Z)
  : M event (mmapio_i mmapio_win32 event) :=
  let mt := mmapio_mode_parse mode_text in
  let bInheritHandle := is_set (bequeath mt) in
  let access := mmapio_mode_rw_cvt (mode mt) in
  emit (CreateFile access bInheritHandle);;
  let fd := sys_CreateFileW sys nm access bInheritHandle in
  if fd =? INVALID_HANDLE_VALUE then return_NULL
  else mmapio_open_rest fd mt sz off.

End Backend.

(** A handle obtained from one of the three open functions. *)
Inductive opened (sys : os) (mode_text : string) (sz off : Z)
  (m : mmapio_i mmapio_win32 event) : Prop :=
| by_open (nm : string) (log : list event) :
    run (mmapio_open sys nm mode_text sz off) = (Some m, log) ->
    opened sys mode_text sz off m
| by_u8open (nm : list Z) (log : list event) :
    run (mmapio_u8open sys nm mode_text sz off) = (Some m, log) ->
    opened sys mode_text sz off m
| by_wopen (nm : list Z) (log : list event) :
    run (mmapio_wopen sys nm mode_text sz off) = (Some m, log) ->
    opened sys mode_text sz off m.

(** The view-mapping calls of a log: byte count and file offset of each,
    the offset put together from its two halves. *)
Definition mapping_calls (log : list event) : list (Z * Z) :=
  flat_map (fun e => match e with
                     | MapView _ _ high low bytes => [(bytes, high * 2 ^ 32 + low)]
                     | _ => []
                     end) log.

End Win32.

(** ** Example systems *)

Module Examples.

(** A Linux system with pages of 4096 bytes and one file of 4096 bytes
    that can be read and written. [open] yields descriptor 3; [mmap]
    fails with [EINVAL] on a length of zero and on an offset that is
    negative or not a multiple of the page size, and maps at a fixed
    address otherwise (a range behind the end of the file included). *)
Definition linux : Unix.os :=
  {| Unix.sys_open := fun _ _ => 3;
     Unix.sys_wcsrtombs := fun _ => Some "data.bin"%string;
     Unix.sys_calloc_name := fun _ => true;
     Unix.sys_calloc := true;
     Unix.sys_fcntl_getfd := fun _ => 0;
     Unix.sys_fcntl_setfd := fun _ _ => 0;
     Unix.sys_fstat := fun _ => Some 4096;
     Unix.sys_page_size := 4096;
     Unix.sys_mmap := fun length _ _ _ offset =>
       if (length =? 0) || (offset <? 0) || negb (offset mod 4096 =? 0)
       then Unix.MAP_FAILED else 0x7f3a00000000 |}.

(** The same system out of address space: [mmap] fails with [ENOMEM]. *)
Definition linux_no_memory : Unix.os :=
  {| Unix.sys_open := Unix.sys_open linux;
     Unix.sys_wcsrtombs := Unix.sys_wcsrtombs linux;
     Unix.sys_calloc_name := Unix.sys_calloc_name linux;
     Unix.sys_calloc := true;
     Unix.sys_fcntl_getfd := Unix.sys_fcntl_getfd linux;
     Unix.sys_fcntl_setfd := Unix.sys_fcntl_setfd linux;
     Unix.sys_fstat := Unix.sys_fstat linux;
     Unix.sys_page_size := 4096;
     Unix.sys_mmap := fun _ _ _ _ _ => Unix.MAP_FAILED |}.

(** The same system with a failing page-size query: [sysconf] is -1, and
    [mmap] takes any offset. *)
Definition linux_no_page_size : Unix.os :=
  {| Unix.sys_open := Unix.sys_open linux;
     Unix.sys_wcsrtombs := Unix.sys_wcsrtombs linux;
     Unix.sys_calloc_name := Unix.sys_calloc_name linux;
     Unix.sys_calloc := true;
     Unix.sys_fcntl_getfd := Unix.sys_fcntl_getfd linux;
     Unix.sys_fcntl_setfd := Unix.sys_fcntl_setfd linux;
     Unix.sys_fstat := Unix.sys_fstat linux;
     Unix.sys_page_size := -1;
     Unix.sys_mmap := fun length _ _ _ offset =>
       if (length =? 0) || (offset <? 0)
       then Unix.MAP_FAILED else 0x7f3a00000000 |}.

(** A Windows system with an allocation granularity of 65536 bytes and
    one file of 4096 bytes. A mapping object needs a protection; a view
    needs an access right and an offset on the granularity. *)
Definition windows : Win32.os :=
  {| Win32.sys_CreateFileA := fun _ _ _ => 0x1a4;
     Win32.sys_CreateFileW := fun _ _ _ => 0x1a4;
     Win32.sys_calloc_name := fun _ => true;
     Win32.sys_calloc := true;
     Win32.sys_GetFileSizeEx := fun _ => Some 4096;
     Win32.sys_granularity := 65536;
     Win32.sys_CreateFileMappingA := fun _ _ protect _ _ =>
       if protect =? 0 then NULL else 0x1b0;
     Win32.sys_MapViewOfFile := fun _ access high low _ =>
       if (access =? 0) || negb ((high * 2 ^ 32 + low) mod 65536 =? 0)
       then NULL else 0x1f0000 |}.

(** The same system reporting a granularity of zero. *)
Definition windows_no_granularity : Win32.os :=
  {| Win32.sys_CreateFileA := Win32.sys_CreateFileA windows;
     Win32.sys_CreateFileW := Win32.sys_CreateFileW windows;
     Win32.sys_calloc_name := Win32.sys_calloc_name windows;
     Win32.sys_calloc := true;
     Win32.sys_GetFileSizeEx := Win32.sys_GetFileSizeEx windows;
     Win32.sys_granularity := 0;
     Win32.sys_CreateFileMappingA := Win32.sys_CreateFileMappingA windows;
     Win32.sys_MapViewOfFile := fun _ access _ _ _ =>
       if access =? 0 then NULL else 0x1f0000 |}.

(** The handle that [linux] gives for mode ["r"], size 100, offset 10. *)
Definition linux_handle : mmapio_i Unix.mmapio_unix Unix.event :=
  Unix.initialize (Unix.mk_unix 0x7f3a00000000 110 10 3).

(** The handle that [windows] gives for the same request. *)
Definition windows_handle : mmapio_i Win32.mmapio_win32 Win32.event :=
  Win32.initialize (Win32.mk_win32 0x1f0000 110 10 0x1b0 0x1a4).

End Examples.

(** ** The dump program ([tests/dump.c]) *)

Module Dump.

(** Constants of [<stdlib.h>] and [<limits.h>]. *)
Definition EXIT_SUCCESS : Z := 0.
Definition EXIT_FAILURE : Z := 1.
Definition UINT_MAX : Z := 2 ^ 32 - 1.

(** The newline character. *)
Definition nl : ascii := "010".

(** The digit of [printf] for a value below 16, in lower case. *)
Definition hex_digit (d : Z) : ascii :=
  nth (Z.to_nat d) (chars "0123456789abcdef") "0"%char.

(** The digits of the conversion [x] for a value that has at most
    [fuel] of them; a value of 0 has the digit 0. *)
Fixpoint hex_digits (fuel : nat) (n : Z) : list ascii :=
  match fuel with
  | O => []
  | S fuel' =>
      if n <? 16 then [hex_digit n]
      else hex_digits fuel' (n / 16) ++ [hex_digit (n mod 16)]
  end.

(** [printf("%4lx", n)]: an [unsigned long] of 64 bits has 16 digits at
    most; a field of 4 characters at least, filled with spaces. *)
Definition fmt_4lx (n : Z) : list ascii :=
  let digits := hex_digits 16 n in
  repeat " "%char (4 - List.length digits) ++ digits.

(** [printf("%02x", n)]: an [unsigned int] of 32 bits has 8 digits at
    most; a field of 2 characters at least, filled with zeros. *)
Definition fmt_02x (n : Z) : list ascii :=
  let digits := hex_digits 8 n in
  repeat "0"%char (2 - List.length digits) ++ digits.

(** [isprint] in the "C" locale, the one the program runs in. *)
Definition isprint (ch : Z) : bool := (0x20 <=? ch) && (ch <=? 0x7E).

(** The values of [j] in [for (j = 0; j < 16; ++j)]. *)
Definition columns : list Z := map Z.of_nat (seq 0 16).

Section Rows.
(** The memory behind the pointer: the byte at each address. *)
Variable mem : Z -> ascii.
(** The pointer [bytes] and the length [len] of the dump. *)
Variables bytes len : Z.

(** [bytes[k]], an [unsigned char]. *)
Definition byte_at (k : Z) : Z := Z.of_nat (nat_of_ascii (mem (bytes + k))).

(** The first inner loop of a row: the bytes in hexadecimal. *)
Definition hex_cells (i : Z) : list ascii :=
  flat_map (fun j =>
              (if j mod 4 =? 0 then [" "%char] else []) ++
              (if j <? size_t (len - i) then fmt_02x (byte_at (i + j))
               else [" "; " "]%char)) columns.

(** The second inner loop of a row: the bytes as characters. *)
Definition char_cells (i : Z) : list ascii :=
  flat_map (fun j =>
              if j <? size_t (len - i) then
                let ch := byte_at (i + j) in
                [if isprint ch then mem (bytes + (i + j)) else "."%char]
              else [" "%char]) columns.

(** One round of [for (i = 0; i < len; i+=16)]. *)
Definition row (i : Z) : list ascii :=
  (if i =? 0 then [] else [nl]) ++ fmt_4lx i ++ [":"%char] ++
  hex_cells i ++ [" "; "|"; " "]%char ++ char_cells i.

(** The loop over the rows from [i] on; [fuel] bounds the rounds. *)
Fixpoint rows (fuel : nat) (i : Z) : list (list ascii) :=
  match fuel with
  | O => []
  | S fuel' =>
      if i <? len then row i :: rows fuel' (size_t (i + 16)) else []
  end.

End Rows.

(** Memory as the program finds it: the byte at an address, or [None]
    where a read faults (no mapping at the address, or one without read
    access) and the process is killed by a signal. *)
Definition memory : Type := Z -> option ascii.

(** The byte of a read that gives one. *)
Definition read_ok (mem : memory) (a : Z) : ascii :=
  match mem a with Some c => c | None => zero end.

(** Whether every read of the loop gives a byte: the loop reads
    [bytes[k]] for each [k] below [len]. *)
Definition readable (mem : memory) (bytes len : Z) : bool :=
  forallb (fun k => match mem (bytes + Z.of_nat k) with
                    | Some _ => true
                    | None => false
                    end) (seq 0 (Z.to_nat len)).

(** What a run of the program that returns leaves: exit status, the
    two output streams and the native calls. *)
Record outcome : Type := mk_outcome {
  status : Z;
  stdout : list ascii;
  stderr : list ascii;
  calls : list Unix.event
}.

(** A run returns from [main], or it is killed at a read that faults,
    with the native calls made until then; what had reached the output
    streams by then depends on their buffers and is not recorded. *)
Inductive result : Type :=
| Exited (o : outcome)
| Killed (calls : list Unix.event).

(** The block "output the data" for a handle [mi], with the native
    calls made so far: length, acquire, the rows, release; [None] when
    a read of the loop faults. The loop makes one round for 16 bytes,
    so [len] rounds are enough. *)
Definition output_the_data {S : Type} (mem : memory) (fname : string)
  (mi : mmapio_i S Unix.event) (log : list Unix.event)
  : option (list ascii * list ascii * list Unix.event) :=
  let len := mmapio_length mi in
  let bytes := mmapio_acquire mi in
  if negb (bytes =? NULL) then
    let len := if UINT_MAX - 32 <=? len then UINT_MAX - 32 else len in
    if readable mem bytes len then
      Some (List.concat (rows (read_ok mem) bytes len (Z.to_nat len) 0)
              ++ [nl], [],
            snd (mmapio_release mi bytes log))
    else None
  else
    Some ([], chars "mapped file '" ++ chars fname
                ++ chars "' gives no bytes?" ++ [nl], log).

(** [main], on the Unix backend. [strtoul] is the function of the C
    library with base 0; [argv] holds the [argc] arguments. *)
Definition main (sys : Unix.os) (strtoul : string -> Z) (mem : memory)
  (argv : list string) : result :=
  if Z.of_nat (List.length argv) <? 5 then
    Exited (mk_outcome EXIT_FAILURE []
              (chars "usage: dump (file) (mode) (offset) (length)" ++ [nl])
              [])
  else
    let fname := nth 1 argv ""%string in
    match run (Unix.mmapio_open sys fname (nth 2 argv ""%string)
                 (size_t (strtoul (nth 3 argv ""%string)))
                 (size_t (strtoul (nth 4 argv ""%string)))) with
    | (None, log) =>
        Exited (mk_outcome EXIT_FAILURE []
                  (chars "failed to map file '" ++ chars fname ++ chars "'"
                     ++ [nl])
                  log)
    | (Some mi, log) =>
        match output_the_data mem fname mi log with
        | Some (out, err, log) =>
            Exited (mk_outcome EXIT_SUCCESS out err
                      (snd (mmapio_close mi log)))
        | None => Killed log
        end
    end.

End Dump.

(** ** Reading a mode text and a log *)

(** The characters the [switch] of [mmapio_mode_parse] has a case for. *)
Definition recognised (c : ascii) : bool :=
  Ascii.eqb c mmapio_mode_write || Ascii.eqb c mmapio_mode_read ||
  Ascii.eqb c mmapio_mode_end || Ascii.eqb c mmapio_mode_private ||
  Ascii.eqb c mmapio_mode_bequeath.

(** A mode text as the caller writes it: at most 8 characters, none of
    them NUL. *)
Definition short_text (s : string) : Prop :=
  (String.length s <= 8)%nat /\ ~ In NUL (chars s).

(** How often a log closes the descriptor [fd], and how often it frees
    the storage of the handle. *)
Definition unix_closes (fd : Z) (log : list Unix.event) : nat :=
  List.length (filter (fun e => match e with
                                | Unix.Close fd' => fd' =? fd
                                | _ => false
                                end) log).

Definition unix_frees (log : list Unix.event) : nat :=
  List.length (filter (fun e => match e with
                                | Unix.Free => true
                                | _ => false
                                end) log).

(** The [F_SETFD] calls of a log: descriptor and flags of each. *)
Definition unix_setfd_calls (log : list Unix.event) : list (Z * Z) :=
  flat_map (fun e => match e with
                     | Unix.SetFd fd flags => [(fd, flags)]
                     | _ => []
                     end) log.

(** How often a log closes the handle [h], and how often it frees the
    storage of the handle. *)
Definition win32_closes (h : Z) (log : list Win32.event) : nat :=
  List.length (filter (fun e => match e with
                                | Win32.CloseHandle h' => h' =? h
                                | _ => false
                                end) log).

Definition win32_frees (log : list Win32.event) : nat :=
  List.length (filter (fun e => match e with
                                | Win32.Free => true
                                | _ => false
                                end) log).

(** The mapping objects a log creates: the maximum size of each, put
    together from its two halves. *)
Definition win32_mapping_objects (log : list Win32.event) : list Z :=
  flat_map (fun e => match e with
                     | Win32.CreateFileMapping _ _ _ high low =>
                         [high * 2 ^ 32 + low]
                     | _ => []
                     end) log.

(** A byte of a name that stands for itself in UTF-8, the terminator
    apart. *)
Definition ascii_byte (b : Z) : Prop := 0 < b < 0x80.

(** The inherit flags a log hands to [CreateFile] and
    [CreateFileMapping]. *)
Definition win32_inherit_flags (log : list Win32.event) : list bool :=
  flat_map (fun e => match e with
                     | Win32.CreateFile _ inherit => [inherit]
                     | Win32.CreateFileMapping _ inherit _ _ _ => [inherit]
                     | _ => []
                     end) log.

(** * Theorems *)

(** ** Machine arithmetic *)

Lemma size_t_id x : in_size_t x -> size_t x = x.
Proof.
  unfold in_size_t, SIZE_MAX, size_t. intros H.
  apply Z.mod_small. lia.
Qed.

Lemma size_t_range x : in_size_t (size_t x).
Proof.
  unfold in_size_t, SIZE_MAX, size_t.
  pose proof (Z.mod_pos_bound x (2 ^ 64) ltac:(lia)). lia.
Qed.

(** A value that fits [off_t] is kept by the conversion. *)
Lemma off_t_id x : 0 <= x <= OFF_MAX -> off_t x = x.
Proof.
  unfold OFF_MAX, off_t. intros H.
  rewrite Z.mod_small; lia.
Qed.

(** The conversion keeps all 64 bits. *)
Lemma off_t_bits x : in_size_t x -> size_t (off_t x) = x.
Proof.
  unfold in_size_t, SIZE_MAX, off_t, size_t. intros H.
  destruct (Z_lt_le_dec x (2 ^ 63)) as [L|L].
  - rewrite (Z.mod_small (x + 2 ^ 63)) by lia.
    replace (x + 2 ^ 63 - 2 ^ 63) with x by lia.
    apply Z.mod_small. lia.
  - replace (x + 2 ^ 63) with ((x - 2 ^ 63) + 1 * 2 ^ 64) by lia.
    rewrite Z.mod_add by lia.
    rewrite (Z.mod_small (x - 2 ^ 63)) by lia.
    replace (x - 2 ^ 63 - 2 ^ 63) with (x + (-1) * 2 ^ 64) by lia.
    rewrite Z.mod_add by lia. apply Z.mod_small. lia.
Qed.

(** The guard of the two "range fix" blocks: past it, the padded size
    is computed without wrap-around and the exposed length is the size. *)
Lemma range_fix sz fullshift :
  in_size_t sz -> 0 <= fullshift ->
  (size_t (SIZE_MAX - sz) <=? fullshift) = false ->
  sz + fullshift < SIZE_MAX /\
  size_t (sz + fullshift) = sz + fullshift /\
  size_t (size_t (sz + fullshift) - fullshift) = sz.
Proof.
  intros Hsz Hs G. apply Z.leb_gt in G.
  rewrite size_t_id in G by (unfold in_size_t in *; lia).
  assert (E : size_t (sz + fullshift) = sz + fullshift)
    by (apply size_t_id; unfold in_size_t in *; lia).
  rewrite E. repeat split; try lia.
  replace (sz + fullshift - fullshift) with sz by lia.
  now apply size_t_id.
Qed.

Lemma mod_le_self a g : 0 <= a -> 0 < g -> 0 <= a mod g <= a.
Proof.
  intros Ha Hg. split.
  - apply Z.mod_pos_bound; lia.
  - apply Z.mod_le; lia.
Qed.

(** ** The mode parser *)

Lemma has_In c cs : has c cs = true <-> In c cs.
Proof.
  unfold has. rewrite existsb_exists. split.
  - intros [x [Hx E]]. apply Ascii.eqb_eq in E. now subst.
  - intros H. exists c. split; [assumption | apply Ascii.eqb_refl].
Qed.

Lemma has_perm c cs cs' : Permutation cs cs' -> has c cs = has c cs'.
Proof.
  intros P. destruct (has c cs) eqn:E, (has c cs') eqn:E'; try reflexivity.
  - apply has_In in E. apply (Permutation_in _ P) in E.
    apply has_In in E. congruence.
  - apply has_In in E'. apply (Permutation_in _ (Permutation_sym P)) in E'.
    apply has_In in E'. congruence.
Qed.

Lemma has_cons c x cs : has c (x :: cs) = Ascii.eqb x c || has c cs.
Proof. unfold has. simpl. now rewrite Ascii.eqb_sym. Qed.

Lemma scan_cons c cs out : scan (c :: cs) out = scan cs (mode_switch c out).
Proof. reflexivity. Qed.

(** A text of at most [n] characters is scanned to its end. *)
Lemma loop_is_scan n s out :
  (String.length s <= n)%nat -> ~ In NUL (chars s) ->
  mode_parse_loop n s out = scan (chars s) out.
Proof.
  revert s out. induction n as [|n IH]; intros s out Hlen Hnul.
  - destruct s; [reflexivity | simpl in Hlen; lia].
  - destruct s as [|c rest]; [reflexivity|].
    simpl in Hlen. cbn [mode_parse_loop chars list_ascii_of_string] in *.
    destruct (Ascii.eqb c NUL) eqn:E.
    + apply Ascii.eqb_eq in E. subst c. exfalso. apply Hnul. now left.
    + rewrite scan_cons. apply IH; [lia | intros H; apply Hnul; now right].
Qed.

Ltac switch_cases c :=
  unfold mode_switch;
  destruct (Ascii.eqb c mmapio_mode_write) eqn:?;
  destruct (Ascii.eqb c mmapio_mode_read) eqn:?;
  destruct (Ascii.eqb c mmapio_mode_end) eqn:?;
  destruct (Ascii.eqb c mmapio_mode_private) eqn:?;
  destruct (Ascii.eqb c mmapio_mode_bequeath) eqn:?;
  repeat match goal with
         | H : Ascii.eqb _ _ = true |- _ => apply Ascii.eqb_eq in H; subst
         end;
  try discriminate; try reflexivity.

Lemma scan_end cs out :
  end_ (scan cs out) =
  if has mmapio_mode_end cs then mmapio_mode_end else end_ out.
Proof.
  revert out. induction cs as [|c cs IH]; intros out; [reflexivity|].
  rewrite scan_cons, IH, has_cons.
  destruct (has mmapio_mode_end cs); [now rewrite orb_true_r|].
  rewrite orb_false_r. switch_cases c.
Qed.

Lemma scan_privy cs out :
  privy (scan cs out) =
  if has mmapio_mode_private cs then mmapio_mode_private else privy out.
Proof.
  revert out. induction cs as [|c cs IH]; intros out; [reflexivity|].
  rewrite scan_cons, IH, has_cons.
  destruct (has mmapio_mode_private cs); [now rewrite orb_true_r|].
  rewrite orb_false_r. switch_cases c.
Qed.

Lemma scan_bequeath cs out :
  bequeath (scan cs out) =
  if has mmapio_mode_bequeath cs then mmapio_mode_bequeath else bequeath out.
Proof.
  revert out. induction cs as [|c cs IH]; intros out; [reflexivity|].
  rewrite scan_cons, IH, has_cons.
  destruct (has mmapio_mode_bequeath cs); [now rewrite orb_true_r|].
  rewrite orb_false_r. switch_cases c.
Qed.

(** With at most one of the two access characters in the text, the
    access mode is that character, wherever it stands. *)
Lemma scan_mode cs out :
  ~ (In mmapio_mode_read cs /\ In mmapio_mode_write cs) ->
  mode (scan cs out) =
  if has mmapio_mode_write cs then mmapio_mode_write
  else if has mmapio_mode_read cs then mmapio_mode_read
  else mode out.
Proof.
  revert out. induction cs as [|c cs IH]; intros out Hone; [reflexivity|].
  assert (Hone' : ~ (In mmapio_mode_read cs /\ In mmapio_mode_write cs)).
  { intros [A B]. apply Hone. split; now right. }
  rewrite scan_cons, (IH _ Hone'), !has_cons.
  destruct (has mmapio_mode_write cs) eqn:Ew.
  - now rewrite orb_true_r.
  - rewrite orb_false_r.
    destruct (has mmapio_mode_read cs) eqn:Er.
    + rewrite orb_true_r.
      destruct (Ascii.eqb c mmapio_mode_write) eqn:Ec; [|reflexivity].
      apply Ascii.eqb_eq in Ec. subst c. exfalso. apply Hone.
      split; [right; now apply has_In | now left].
    + rewrite orb_false_r. switch_cases c.
Qed.

Lemma tag_ext (a b : mmapio_mode_tag) :
  mode a = mode b -> end_ a = end_ b -> privy a = privy b ->
  bequeath a = bequeath b -> a = b.
Proof. destruct a, b; simpl; congruence. Qed.

Lemma chars_length s : List.length (chars s) = String.length s.
Proof. induction s; simpl; congruence. Qed.

(** The scan does not depend on the order of the characters when at
    most one access character occurs. *)
Lemma scan_perm cs cs' out :
  Permutation cs cs' ->
  ~ (In mmapio_mode_read cs /\ In mmapio_mode_write cs) ->
  scan cs out = scan cs' out.
Proof.
  intros P Hone.
  assert (Hone' : ~ (In mmapio_mode_read cs' /\ In mmapio_mode_write cs')).
  { intros [A B]. apply Hone.
    split; eapply Permutation_in; try apply Permutation_sym; eassumption. }
  apply tag_ext.
  - rewrite !scan_mode by assumption.
    now rewrite (has_perm _ _ _ P), (has_perm mmapio_mode_read _ _ P).
  - now rewrite !scan_end, (has_perm _ _ _ P).
  - now rewrite !scan_privy, (has_perm _ _ _ P).
  - now rewrite !scan_bequeath, (has_perm _ _ _ P).
Qed.

(** C7, as amended. The parse of a mode text of at most 8 characters
    that does not hold both access characters ['r'] and ['w'] is the
    same for every permutation of its characters: access mode,
    extend-to-end, private and inheritance flag agree, and characters
    that are not recognised are skipped. *)
Theorem mode_parse_permutation (s s' : string) :
  Permutation (chars s) (chars s') ->
  (String.length s <= 8)%nat ->
  ~ In NUL (chars s) ->
  one_access s ->
  mmapio_mode_parse s = mmapio_mode_parse s'.
Proof.
  intros P Hlen Hnul Hone. unfold mmapio_mode_parse.
  rewrite !loop_is_scan.
  - now apply scan_perm.
  - rewrite <- chars_length, <- (Permutation_length P), chars_length.
    assumption.
  - intros H. apply Hnul.
    eapply Permutation_in; [apply Permutation_sym|]; eassumption.
  - assumption.
  - assumption.
Qed.

Lemma mode_parse_permutation_witness :
  mmapio_mode_parse "qper" = mmapio_mode_parse "repq".
Proof.
  apply mode_parse_permutation.
  - unfold chars. simpl.
    apply Permutation_trans with (l' := ["r"; "q"; "p"; "e"]%char).
    + apply Permutation_sym.
      apply (Permutation_cons_app ["q"; "p"; "e"]%char [] "r"%char).
      apply Permutation_refl.
    + apply perm_skip.
      apply Permutation_trans with (l' := ["e"; "q"; "p"]%char).
      * apply Permutation_sym.
        apply (Permutation_cons_app ["q"; "p"]%char [] "e"%char).
        apply Permutation_refl.
      * apply perm_skip. apply perm_swap.
  - simpl. lia.
  - unfold chars, NUL. simpl. intros [H|[H|[H|[H|H]]]]; try discriminate H.
    exact H.
  - unfold one_access, chars, mmapio_mode_write. simpl.
    intros [_ [H|[H|[H|[H|H]]]]]; try discriminate H. exact H.
Defined.

(** C7 as stated fails: the later of two access characters wins, and a
    character behind the eighth is never read. *)
Lemma mode_parse_order_counterexample :
  ~ (forall s s' : string,
        Permutation (chars s) (chars s') ->
        mmapio_mode_parse s = mmapio_mode_parse s') /\
  ~ (forall s s' : string,
        Permutation (chars s) (chars s') -> one_access s ->
        mmapio_mode_parse s = mmapio_mode_parse s').
Proof.
  split; intros H.
  - specialize (H "rw"%string "wr"%string (perm_swap _ _ _)).
    discriminate H.
  - assert (P : Permutation (chars "xxxxxxxxr") (chars "rxxxxxxxx")).
    { unfold chars. simpl. apply Permutation_sym.
      exact (Permutation_cons_append (repeat "x"%char 8) "r"%char). }
    specialize (H _ _ P).
    assert (O : one_access "xxxxxxxxr").
    { unfold one_access, chars, mmapio_mode_write. simpl.
      intros [_ W].
      repeat (destruct W as [W|W]; [discriminate W|]). exact W. }
    specialize (H O). discriminate H.
Qed.

(** ** Stepping through the open functions *)

Ltac mm_unfold := unfold bind, emit, ret, return_NULL, run in *.

Ltac mm_case :=
  match goal with
  | H : context [if ?b then _ else _] |- _ => destruct b eqn:?
  | H : context [match ?o with Some _ => _ | None => _ end] |- _ =>
      destruct o eqn:?
  end.

Ltac mm_done :=
  repeat match goal with
         | H : (None, _) = (Some _, _) |- _ => discriminate H
         | H : (Some _, _) = (None, _) |- _ => discriminate H
         | H : (Some _, _) = (Some _, _) |- _ => inversion H; subst; clear H
         | H : (None, _) = (None, _) |- _ => inversion H; subst; clear H
         end.

Section UnixSteps.
Variable sys : Unix.os.

(** What the block "fix to page sizes" yields when it does not fail. *)
Lemma unix_page_fix_ok fd sz off l fullsize fullshift fulloff l' :
  Unix.fix_to_page_sizes sys fd sz off l
    = (Some (fullsize, fullshift, fulloff), l') ->
  l' = l /\
  ((0 < Unix.sys_page_size sys /\
    fullshift = off mod Unix.sys_page_size sys /\
    (size_t (SIZE_MAX - sz) <=? fullshift) = false /\
    fullsize = size_t (sz + fullshift) /\
    fulloff = off_t (size_t (off - fullshift)))
   \/
   (Unix.sys_page_size sys <= 0 /\
    fullshift = 0 /\ fullsize = sz /\ fulloff = off_t off)).
Proof.
  unfold Unix.fix_to_page_sizes. mm_unfold. intros H.
  destruct (0 <? Unix.sys_page_size sys) eqn:P.
  - apply Z.ltb_lt in P.
    destruct (size_t (SIZE_MAX - sz) <=? off mod Unix.sys_page_size sys) eqn:G;
      mm_done.
    split; [reflexivity|]. left. repeat split; assumption.
  - apply Z.ltb_ge in P. mm_done.
    split; [reflexivity|]. right. repeat split; assumption.
Qed.

(** What the last block yields when it does not fail. *)
Lemma unix_map_ok fd mt fullsize fullshift fulloff l m l' :
  Unix.map_and_initialize sys fd mt fullsize fullshift fulloff l = (Some m, l') ->
  let prot := Unix.mmapio_mode_prot_cvt (mode mt) in
  let flags := Unix.mmapio_mode_flag_cvt (privy mt) in
  let p := Unix.sys_mmap sys fullsize prot flags fd fulloff in
  p <> NULL /\
  m = Unix.initialize (Unix.mk_unix p fullsize fullshift fd) /\
  l' = l ++ [Unix.Mmap fullsize prot flags fd fulloff].
Proof.
  unfold Unix.map_and_initialize. mm_unfold. intros H. cbv zeta.
  destruct (_ =? NULL) eqn:E in H; mm_done.
  apply Z.eqb_neq in E. repeat split. assumption.
Qed.

(** A successful [mmapio_open_rest] went through both blocks. *)
Lemma unix_open_rest_ok fd mt sz off l m l' :
  Unix.mmapio_open_rest sys fd mt sz off l = (Some m, l') ->
  exists fullsize fullshift fulloff l1,
    Unix.fix_to_page_sizes sys fd (Unix.fix_map_size sys fd mt sz off) off l1
      = (Some (fullsize, fullshift, fulloff), l1) /\
    Unix.map_and_initialize sys fd mt fullsize fullshift fulloff l1
      = (Some m, l').
Proof.
  unfold Unix.mmapio_open_rest. mm_unfold. intros H.
  destruct (negb (Unix.sys_calloc sys)); mm_done.
  destruct (Unix.assign_cloexec sys fd mt l) as [[[|]|] l1]; mm_done.
  destruct (Unix.fix_to_page_sizes sys fd _ off l1)
    as [[[[a b] c]|] l2] eqn:F; mm_done.
  destruct (unix_page_fix_ok _ _ _ _ _ _ _ _ F) as [-> _].
  exists a, b, c, l1. split; assumption.
Qed.

(** Every open function hands its arguments to [mmapio_open_rest] with
    the parsed mode. *)
Lemma unix_opened_rest mode_text sz off m :
  Unix.opened sys mode_text sz off m ->
  exists fd l l',
    Unix.mmapio_open_rest sys fd (mmapio_mode_parse mode_text) sz off l
      = (Some m, l').
Proof.
  intros [nm log H|nm log H|nm log H].
  - unfold Unix.mmapio_open in H. mm_unfold.
    destruct (_ =? -1) in H; mm_done. eauto.
  - unfold Unix.mmapio_u8open in H. mm_unfold.
    destruct (_ =? -1) in H; mm_done. eauto.
  - unfold Unix.mmapio_wopen in H. mm_unfold.
    destruct (Unix.mmapio_wctomb sys nm); mm_done.
    destruct (_ =? -1) in H; mm_done. eauto.
Qed.

(** The size in force behind the block "fix map size" is a [size_t]. *)
Lemma unix_map_size_range fd mt sz off :
  in_size_t sz -> in_size_t (Unix.fix_map_size sys fd mt sz off).
Proof.
  intros H. unfold Unix.fix_map_size.
  destruct (is_set (end_ mt)); [|assumption].
  destruct (_ <? off); [|apply size_t_range].
  unfold in_size_t, SIZE_MAX. lia.
Qed.

(** The fields of a handle that [mmapio_open_rest] returned. *)
Lemma unix_handle fd mt sz off l m l' :
  in_size_t sz -> in_size_t off ->
  Unix.mmapio_open_rest sys fd mt sz off l = (Some m, l') ->
  let sz' := Unix.fix_map_size sys fd mt sz off in
  mmi_acquire m = Unix.mmapio_mmi_acquire /\
  mmi_length m = Unix.mmapio_mmi_length /\
  Unix.ptr (self m) <> NULL /\
  0 <= Unix.shift (self m) <= off /\
  Unix.len (self m) = sz' + Unix.shift (self m) /\
  Unix.len (self m) <= SIZE_MAX /\
  (0 < Unix.sys_page_size sys ->
     Unix.shift (self m) = off mod Unix.sys_page_size sys) /\
  (Unix.sys_page_size sys <= 0 -> Unix.shift (self m) = 0) /\
  exists prot flags fulloff,
    Unix.ptr (self m) =
      Unix.sys_mmap sys (Unix.len (self m)) prot flags fd fulloff.
Proof.
  intros Hsz Hoff H sz'.
  destruct (unix_open_rest_ok _ _ _ _ _ _ _ H) as (a & b & c & l1 & F & G).
  apply unix_page_fix_ok in F. destruct F as [_ F].
  apply unix_map_ok in G. cbv zeta in G. destruct G as (Hp & -> & _).
  pose proof (unix_map_size_range fd mt sz off Hsz) as R. fold sz' in R, F.
  unfold Unix.initialize.
  cbn [self mmi_acquire mmi_length Unix.ptr Unix.len Unix.shift].
  destruct F as [(P & -> & Gd & -> & ->)|(P & -> & -> & ->)].
  - pose proof (mod_le_self off (Unix.sys_page_size sys)
                  ltac:(unfold in_size_t in *; lia) P) as B.
    destruct (range_fix _ _ R (proj1 B) Gd) as (W1 & W2 & _).
    rewrite W2 in *. repeat split; try assumption; try lia; eauto.
  - unfold in_size_t in *. repeat split; try assumption; try lia; eauto.
Qed.

End UnixSteps.

Section Win32Steps.
Variable sys : Win32.os.

(** What the block "fix map size" yields when it does not reject. *)
Lemma win32_map_size_ok fd mt size_clamp sz off l sz' l' :
  Win32.fix_map_size fd mt size_clamp sz off l = (Some sz', l') ->
  l' = l /\
  ((is_set (end_ mt) = true /\ off <= size_clamp /\
    sz' = size_t (size_clamp - off))
   \/ (is_set (end_ mt) = false /\ sz <> 0 /\ sz' = sz)).
Proof.
  unfold Win32.fix_map_size. mm_unfold. intros H.
  destruct (is_set (end_ mt)).
  - destruct (size_clamp <? off) eqn:E; mm_done.
    apply Z.ltb_ge in E. split; [reflexivity|]. left. repeat split. assumption.
  - destruct (sz =? 0) eqn:E; mm_done.
    apply Z.eqb_neq in E. split; [reflexivity|]. right. repeat split. assumption.
Qed.

(** What the block "fix to allocation granularity" yields when it does
    not fail. *)
Lemma win32_granularity_ok fd sz off l fullsize fullshift fulloff ext l' :
  Win32.fix_to_granularity sys fd sz off l
    = (Some (fullsize, fullshift, fulloff, ext), l') ->
  l' = l /\
  ((0 < Win32.sys_granularity sys /\
    fullshift = off mod Win32.sys_granularity sys /\
    (size_t (SIZE_MAX - sz) <=? fullshift) = false /\
    fullsize = size_t (sz + fullshift) /\
    fulloff = size_t (off - fullshift))
   \/
   (Win32.sys_granularity sys <= 0 /\
    fullshift = 0 /\ fullsize = sz /\ fulloff = off /\ ext = sz)).
Proof.
  unfold Win32.fix_to_granularity. mm_unfold. intros H.
  destruct (0 <? Win32.sys_granularity sys) eqn:P.
  - apply Z.ltb_lt in P.
    destruct (size_t (SIZE_MAX - sz) <=? off mod Win32.sys_granularity sys) eqn:G;
      mm_done.
    split; [reflexivity|]. left. repeat split; assumption.
  - apply Z.ltb_ge in P. mm_done.
    split; [reflexivity|]. right. repeat split; assumption.
Qed.

(** What the last block yields when it does not fail. *)
Lemma win32_map_ok fd mt size_clamp fullsize fullshift fulloff ext l m l' :
  Win32.map_and_initialize sys fd mt size_clamp fullsize fullshift fulloff ext l
    = (Some m, l') ->
  exists fmd protect high low,
    let access := Win32.mmapio_mode_access_cvt mt in
    let p := Win32.sys_MapViewOfFile sys fmd access
               (Win32.high_dword fulloff) (Win32.low_dword fulloff) fullsize in
    fmd <> NULL /\ p <> NULL /\
    m = Win32.initialize (Win32.mk_win32 p fullsize fullshift fmd fd) /\
    l' = l ++ [Win32.CreateFileMapping fd (is_set (bequeath mt)) protect high low;
               Win32.MapView fmd access (Win32.high_dword fulloff)
                 (Win32.low_dword fulloff) fullsize].
Proof.
  unfold Win32.map_and_initialize. mm_unfold. intros H. cbv zeta in H.
  destruct (_ =? NULL) eqn:E1 in H; mm_done.
  destruct (_ =? NULL) eqn:E2 in H; mm_done.
  apply Z.eqb_neq in E1, E2.
  do 4 eexists. cbv zeta. split; [exact E1|]. split; [exact E2|].
  split; [reflexivity|]. rewrite <- app_assoc. reflexivity.
Qed.

(** A successful [mmapio_open_rest] went through the three blocks. *)
Lemma win32_open_rest_ok fd mt sz off l m l' :
  Win32.mmapio_open_rest sys fd mt sz off l = (Some m, l') ->
  let size_clamp := Win32.mmapio_file_size_e sys fd in
  exists sz' fullsize fullshift fulloff ext,
    Win32.fix_map_size fd mt size_clamp sz off l = (Some sz', l) /\
    Win32.fix_to_granularity sys fd sz' off l
      = (Some (fullsize, fullshift, fulloff, ext), l) /\
    Win32.map_and_initialize sys fd mt size_clamp
      fullsize fullshift fulloff ext l = (Some m, l').
Proof.
  unfold Win32.mmapio_open_rest. mm_unfold. intros H. cbv zeta in *.
  destruct (negb (Win32.sys_calloc sys)); mm_done.
  destruct (Win32.fix_map_size fd mt _ sz off l) as [[sz'|] l1] eqn:S; mm_done.
  destruct (win32_map_size_ok _ _ _ _ _ _ _ _ S) as [-> _].
  destruct (Win32.fix_to_granularity sys fd sz' off l)
    as [[[[[a b] c] d]|] l2] eqn:F; mm_done.
  destruct (win32_granularity_ok _ _ _ _ _ _ _ _ _ F) as [-> _].
  exists sz', a, b, c, d. repeat split; assumption.
Qed.

Lemma win32_opened_rest mode_text sz off m :
  Win32.opened sys mode_text sz off m ->
  exists fd l l',
    Win32.mmapio_open_rest sys fd (mmapio_mode_parse mode_text) sz off l
      = (Some m, l').
Proof.
  intros [nm log H|nm log H|nm log H].
  - unfold Win32.mmapio_open in H. mm_unfold.
    destruct (_ =? Win32.INVALID_HANDLE_VALUE) in H; mm_done. eauto.
  - unfold Win32.mmapio_u8open in H. mm_unfold.
    destruct (Win32.mmapio_u8towc sys nm); mm_done.
    destruct (_ =? Win32.INVALID_HANDLE_VALUE) in H; mm_done. eauto.
  - unfold Win32.mmapio_wopen in H. mm_unfold.
    destruct (_ =? Win32.INVALID_HANDLE_VALUE) in H; mm_done. eauto.
Qed.

End Win32Steps.

Section Win32Handle.
Variable sys : Win32.os.

(** The fields of a handle that [mmapio_open_rest] returned; [sz'] is
    the size in force behind the block "fix map size". *)
Lemma win32_handle fd mt sz off l m l' :
  in_size_t sz -> in_size_t off ->
  Win32.mmapio_open_rest sys fd mt sz off l = (Some m, l') ->
  exists sz',
    Win32.fix_map_size fd mt (Win32.mmapio_file_size_e sys fd) sz off l
      = (Some sz', l) /\
    in_size_t sz' /\
    mmi_acquire m = Win32.mmapio_mmi_acquire /\
    mmi_length m = Win32.mmapio_mmi_length /\
    Win32.ptr (self m) <> NULL /\
    0 <= Win32.shift (self m) <= off /\
    Win32.len (self m) = sz' + Win32.shift (self m) /\
    Win32.len (self m) <= SIZE_MAX /\
    (0 < Win32.sys_granularity sys ->
       Win32.shift (self m) = off mod Win32.sys_granularity sys) /\
    (Win32.sys_granularity sys <= 0 -> Win32.shift (self m) = 0).
Proof.
  intros Hsz Hoff H.
  destruct (win32_open_rest_ok _ _ _ _ _ _ _ _ H)
    as (sz' & a & b & c & d & S & F & G).
  exists sz'. split; [exact S|].
  apply win32_map_size_ok in S. destruct S as [_ S].
  assert (R : in_size_t sz').
  { destruct S as [(_ & _ & ->)|(_ & _ & ->)];
      [apply size_t_range | assumption]. }
  split; [exact R|].
  apply win32_granularity_ok in F. destruct F as [_ F].
  apply win32_map_ok in G. destruct G as (fmd & pr & hi & lo & G).
  cbv zeta in G. destruct G as (_ & Hp & -> & _).
  unfold Win32.initialize.
  cbn [self mmi_acquire mmi_length Win32.ptr Win32.len Win32.shift].
  destruct F as [(P & -> & Gd & -> & ->)|(P & -> & -> & -> & ->)].
  - pose proof (mod_le_self off (Win32.sys_granularity sys)
                  ltac:(unfold in_size_t in *; lia) P) as B.
    destruct (range_fix _ _ R (proj1 B) Gd) as (W1 & W2 & _).
    rewrite W2 in *. repeat split; try assumption; try lia.
  - unfold in_size_t in *. repeat split; try assumption; try lia.
Qed.

End Win32Handle.

(** ** C1: the exposed length *)

(** C1. Extend-to-end unset and a requested size above zero: on either
    backend, every handle that one of the open functions returns has
    [mmapio_length] equal to the requested size, whatever the offset and
    the granularity of the system; the total mapped length is the size
    plus the shift, and the length is that total minus the shift. *)
Theorem open_length_is_requested_size
  (usys : Unix.os) (wsys : Win32.os) (mode_text : string) (sz off : Z) :
  in_size_t sz -> in_size_t off -> 0 < sz ->
  end_ (mmapio_mode_parse mode_text) = NUL ->
  (forall m, Unix.opened usys mode_text sz off m ->
     mmapio_length m = sz /\
     Unix.len (self m) = sz + Unix.shift (self m) /\
     mmapio_length m = Unix.len (self m) - Unix.shift (self m))
  /\
  (forall m, Win32.opened wsys mode_text sz off m ->
     mmapio_length m = sz /\
     Win32.len (self m) = sz + Win32.shift (self m) /\
     mmapio_length m = Win32.len (self m) - Win32.shift (self m)).
Proof.
  intros Hsz Hoff Hpos Hend. split; intros m Hm.
  - destruct (unix_opened_rest _ _ _ _ _ Hm) as (fd & l & l' & H).
    destruct (unix_handle _ _ _ _ _ _ _ _ Hsz Hoff H)
      as (_ & L & _ & _ & E & _).
    unfold Unix.fix_map_size, is_set in E. rewrite Hend in E.
    rewrite Ascii.eqb_refl in E. cbn [negb] in E.
    unfold mmapio_length. rewrite L. unfold Unix.mmapio_mmi_length.
    rewrite E.
    replace (sz + Unix.shift (self m) - Unix.shift (self m)) with sz by lia.
    rewrite (size_t_id _ Hsz). auto.
  - destruct (win32_opened_rest _ _ _ _ _ Hm) as (fd & l & l' & H).
    destruct (win32_handle _ _ _ _ _ _ _ _ Hsz Hoff H)
      as (sz' & S & _ & _ & L & _ & _ & E & _).
    apply win32_map_size_ok in S. destruct S as [_ S].
    assert (sz' = sz) as ->.
    { unfold is_set in S. rewrite Hend, Ascii.eqb_refl in S. cbn [negb] in S.
      destruct S as [(S & _)|(_ & _ & S)]; [discriminate S | exact S]. }
    unfold mmapio_length. rewrite L. unfold Win32.mmapio_mmi_length.
    rewrite E.
    replace (sz + Win32.shift (self m) - Win32.shift (self m)) with sz by lia.
    rewrite (size_t_id _ Hsz). auto.
Qed.

Lemma open_length_witness :
  mmapio_length Examples.linux_handle = 100 /\
  mmapio_length Examples.windows_handle = 100.
Proof.
  destruct (open_length_is_requested_size
              Examples.linux Examples.windows "r" 100 10) as [U W].
  - unfold in_size_t, SIZE_MAX. lia.
  - unfold in_size_t, SIZE_MAX. lia.
  - lia.
  - reflexivity.
  - split.
    + apply (U Examples.linux_handle).
      apply Unix.by_open with (nm := "data.bin"%string)
                              (log := [Unix.Open "data.bin" 524288;
                                       Unix.SetFd 3 1;
                                       Unix.Mmap 110 1 1 3 0]).
      reflexivity.
    + apply (W Examples.windows_handle).
      apply Win32.by_open with (nm := "data.bin"%string)
                               (log := [Win32.CreateFile 2147483648 false;
                                        Win32.CreateFileMapping 420 false 2 0 4096;
                                        Win32.MapView 432 4 0 0 110]).
      reflexivity.
Defined.

(** ** Acquire *)

(** Around a mapping. On either backend, for every handle that one of
    the open functions returns around a mapping (a range of the address
    space), [mmapio_acquire] is the base pointer plus the shift,
    computed without wrap-around; it points into the mapped range (the
    shift is at most the mapped length) and it is not [NULL]. The Unix
    open also returns handles that are not around a mapping: for these
    see [acquire_returns_null_after_failed_mmap]. *)
Theorem acquire_never_fails
  (usys : Unix.os) (wsys : Win32.os) (mode_text : string) (sz off : Z) :
  in_size_t sz -> in_size_t off ->
  (forall m, Unix.opened usys mode_text sz off m ->
     in_address_space (Unix.ptr (self m)) (Unix.len (self m)) ->
     mmapio_acquire m = Unix.ptr (self m) + Unix.shift (self m) /\
     mmapio_acquire m <> NULL /\
     0 <= Unix.shift (self m) <= Unix.len (self m))
  /\
  (forall m, Win32.opened wsys mode_text sz off m ->
     in_address_space (Win32.ptr (self m)) (Win32.len (self m)) ->
     mmapio_acquire m = Win32.ptr (self m) + Win32.shift (self m) /\
     mmapio_acquire m <> NULL /\
     0 <= Win32.shift (self m) <= Win32.len (self m)).
Proof.
  intros Hsz Hoff. split; intros m Hm [Haddr Hend].
  - destruct (unix_opened_rest _ _ _ _ _ Hm) as (fd & l & l' & H).
    pose proof (unix_map_size_range usys fd (mmapio_mode_parse mode_text)
                  sz off Hsz) as R.
    destruct (unix_handle _ _ _ _ _ _ _ _ Hsz Hoff H)
      as (A & _ & N & S & E & _).
    unfold mmapio_acquire. rewrite A. unfold Unix.mmapio_mmi_acquire.
    rewrite size_t_id by (unfold in_size_t in *; lia).
    unfold NULL, in_size_t in *. repeat split; lia.
  - destruct (win32_opened_rest _ _ _ _ _ Hm) as (fd & l & l' & H).
    destruct (win32_handle _ _ _ _ _ _ _ _ Hsz Hoff H)
      as (sz' & _ & R & A & _ & N & S & E & _).
    unfold mmapio_acquire. rewrite A. unfold Win32.mmapio_mmi_acquire.
    rewrite size_t_id by (unfold in_size_t in *; lia).
    unfold NULL, in_size_t in *. repeat split; lia.
Qed.

Lemma acquire_never_fails_witness :
  mmapio_acquire Examples.linux_handle = 0x7f3a00000000 + 10 /\
  mmapio_acquire Examples.windows_handle <> NULL.
Proof.
  destruct (acquire_never_fails Examples.linux Examples.windows "r" 100 10)
    as [U W].
  - unfold in_size_t, SIZE_MAX. lia.
  - unfold in_size_t, SIZE_MAX. lia.
  - split.
    + apply (U Examples.linux_handle).
      * apply Unix.by_open with (nm := "data.bin"%string)
                                (log := [Unix.Open "data.bin" 524288;
                                         Unix.SetFd 3 1;
                                         Unix.Mmap 110 1 1 3 0]).
        reflexivity.
      * unfold in_address_space, SIZE_MAX. simpl. lia.
    + apply (W Examples.windows_handle).
      * apply Win32.by_open with (nm := "data.bin"%string)
                                 (log := [Win32.CreateFile 2147483648 false;
                                          Win32.CreateFileMapping 420 false 2 0 4096;
                                          Win32.MapView 432 4 0 0 110]).
        reflexivity.
      * unfold in_address_space, SIZE_MAX. simpl. lia.
Defined.

(** ** The calls of an open, step by step *)

Lemma unix_mapping_calls_app l l' :
  Unix.mapping_calls (l ++ l') = Unix.mapping_calls l ++ Unix.mapping_calls l'.
Proof. unfold Unix.mapping_calls. apply flat_map_app. Qed.

Lemma win32_mapping_calls_app l l' :
  Win32.mapping_calls (l ++ l') = Win32.mapping_calls l ++ Win32.mapping_calls l'.
Proof. unfold Win32.mapping_calls. apply flat_map_app. Qed.

(** The two halves handed to the native calls put the value together
    again. *)
Lemma dword_halves x :
  in_size_t x -> Win32.high_dword x * 2 ^ 32 + Win32.low_dword x = x.
Proof.
  unfold in_size_t, SIZE_MAX, Win32.high_dword, Win32.low_dword. intros H.
  change 0xFFFFFFFF with (Z.ones 32).
  rewrite !Z.land_ones, Z.shiftr_div_pow2 by lia.
  assert (0 <= x / 2 ^ 32 < 2 ^ 32).
  { split; [apply Z.div_pos; lia | apply Z.div_lt_upper_bound; lia]. }
  rewrite (Z.mod_small (x / 2 ^ 32)) by assumption.
  pose proof (Z.div_mod x (2 ^ 32) ltac:(lia)). lia.
Qed.

Section UnixRun.
Variable sys : Unix.os.

(** The block "assign the close-on-exec flag" makes one [F_SETFD] call
    at most. *)
Lemma unix_cloexec_log fd mt l r l1 :
  Unix.assign_cloexec sys fd mt l = (r, l1) ->
  l1 = l \/ exists flags, l1 = l ++ [Unix.SetFd fd flags].
Proof.
  unfold Unix.assign_cloexec. mm_unfold. intros H.
  destruct (_ <? 0) in H; [left; congruence|].
  destruct (is_set (bequeath mt)); inversion H; right; eauto.
Qed.

(** Past the allocation and the close-on-exec block. *)
Lemma unix_open_rest_checks fd mt sz off l l1 :
  Unix.sys_calloc sys = true ->
  Unix.assign_cloexec sys fd mt l = (Some false, l1) ->
  Unix.mmapio_open_rest sys fd mt sz off l =
  bind (Unix.fix_to_page_sizes sys fd (Unix.fix_map_size sys fd mt sz off) off)
       (fun fixed =>
          let '(fullsize, fullshift, fulloff) := fixed in
          Unix.map_and_initialize sys fd mt fullsize fullshift fulloff) l1.
Proof.
  intros C G. unfold Unix.mmapio_open_rest. rewrite C. cbn [negb].
  unfold bind at 1. rewrite G. reflexivity.
Qed.

(** The last block, whatever [mmap] returns. *)
Lemma unix_map_run fd mt fullsize fullshift fulloff l :
  let prot := Unix.mmapio_mode_prot_cvt (mode mt) in
  let flags := Unix.mmapio_mode_flag_cvt (privy mt) in
  let p := Unix.sys_mmap sys fullsize prot flags fd fulloff in
  Unix.map_and_initialize sys fd mt fullsize fullshift fulloff l =
  if p =? NULL then
    (None, l ++ [Unix.Mmap fullsize prot flags fd fulloff;
                 Unix.Close fd; Unix.Free])
  else
    (Some (Unix.initialize (Unix.mk_unix p fullsize fullshift fd)),
     l ++ [Unix.Mmap fullsize prot flags fd fulloff]).
Proof.
  cbv zeta. unfold Unix.map_and_initialize. mm_unfold.
  destruct (_ =? NULL); [|reflexivity].
  rewrite <- !app_assoc. reflexivity.
Qed.

(** The last block calls [mmap] once, and never sets [errno]. *)
Lemma unix_map_calls fd mt fullsize fullshift fulloff l :
  let r := Unix.map_and_initialize sys fd mt fullsize fullshift fulloff l in
  Unix.mapping_calls (snd r) = Unix.mapping_calls l ++ [(fullsize, fulloff)] /\
  (forall e, In (Unix.SetErrno e) (snd r) -> In (Unix.SetErrno e) l) /\
  (forall m, fst r = Some m ->
     Unix.len (self m) = fullsize /\ Unix.shift (self m) = fullshift /\
     mmi_length m = Unix.mmapio_mmi_length).
Proof.
  cbv zeta. rewrite unix_map_run. cbv zeta.
  destruct (_ =? NULL); cbn [fst snd]; rewrite unix_mapping_calls_app;
    (split; [reflexivity|split]).
  - intros e H. apply in_app_or in H. destruct H as [H|H]; [assumption|].
    simpl in H. destruct H as [H|[H|[H|H]]]; try discriminate H.
    contradiction.
  - intros m H. discriminate H.
  - intros e H. apply in_app_or in H. destruct H as [H|H]; [assumption|].
    simpl in H. destruct H as [H|H]; [discriminate H | contradiction].
  - intros m H. inversion H. auto.
Qed.

End UnixRun.

Section Win32Run.
Variable sys : Win32.os.

(** Past the allocation and the block "fix map size". *)
Lemma win32_open_rest_checks fd mt sz off l size :
  Win32.sys_calloc sys = true ->
  Win32.fix_map_size fd mt (Win32.mmapio_file_size_e sys fd) sz off l
    = (Some size, l) ->
  Win32.mmapio_open_rest sys fd mt sz off l =
  bind (Win32.fix_to_granularity sys fd size off)
       (fun fixed =>
          let '(fullsize, fullshift, fulloff, extended_size) := fixed in
          Win32.map_and_initialize sys fd mt (Win32.mmapio_file_size_e sys fd)
            fullsize fullshift fulloff extended_size) l.
Proof.
  intros C G. unfold Win32.mmapio_open_rest. cbv zeta. rewrite C. cbn [negb].
  unfold bind at 1. rewrite G. reflexivity.
Qed.

(** The last block maps a view once at most, with the byte count and
    the offset it was given, and never sets [errno]. *)
Lemma win32_map_calls fd mt size_clamp fullsize fullshift fulloff ext l :
  in_size_t fulloff ->
  let r := Win32.map_and_initialize sys fd mt size_clamp
             fullsize fullshift fulloff ext l in
  (forall c, In c (Win32.mapping_calls (snd r)) ->
     In c (Win32.mapping_calls l) \/ c = (fullsize, fulloff)) /\
  (forall e, In (Win32.SetErrno e) (snd r) -> In (Win32.SetErrno e) l) /\
  (forall m, fst r = Some m ->
     Win32.mapping_calls (snd r)
       = Win32.mapping_calls l ++ [(fullsize, fulloff)] /\
     Win32.len (self m) = fullsize /\ Win32.shift (self m) = fullshift /\
     mmi_length m = Win32.mmapio_mmi_length).
Proof.
  intros R. cbv zeta. unfold Win32.map_and_initialize. mm_unfold.
  destruct (_ =? NULL); cbn [fst snd].
  - rewrite <- !app_assoc. split; [|split].
    + intros c H. rewrite win32_mapping_calls_app in H.
      apply in_app_or in H. destruct H as [H|H]; [now left | destruct H].
    + intros e H. apply in_app_or in H. destruct H as [H|H]; [assumption|].
      cbn [In app] in H. destruct H as [H|[H|[H|H]]]; try discriminate H.
      contradiction.
    + intros m H. discriminate H.
  - destruct (_ =? NULL); cbn [fst snd]; rewrite <- !app_assoc;
      (split; [|split]).
    + intros c H. rewrite win32_mapping_calls_app in H.
      apply in_app_or in H. destruct H as [H|H]; [now left|].
      unfold Win32.mapping_calls in H; cbn [flat_map app In] in H.
      rewrite (dword_halves _ R) in H.
      destruct H as [H|H]; [now right | contradiction].
    + intros e H. apply in_app_or in H. destruct H as [H|H]; [assumption|].
      cbn [In app] in H.
      repeat (destruct H as [H|H]; [discriminate H|]). contradiction.
    + intros m H. discriminate H.
    + intros c H. rewrite win32_mapping_calls_app in H.
      apply in_app_or in H. destruct H as [H|H]; [now left|].
      unfold Win32.mapping_calls in H; cbn [flat_map app In] in H.
      rewrite (dword_halves _ R) in H.
      destruct H as [H|H]; [now right | contradiction].
    + intros e H. apply in_app_or in H. destruct H as [H|H]; [assumption|].
      cbn [In app] in H.
      repeat (destruct H as [H|H]; [discriminate H|]). contradiction.
    + intros m H. inversion H. cbn [self Win32.len Win32.shift mmi_length].
      rewrite win32_mapping_calls_app.
      unfold Win32.mapping_calls at 2; cbn [flat_map app].
      rewrite (dword_halves _ R). auto.
Qed.

End Win32Run.

(** ** C6: the range fix *)

Lemma unix_cloexec_calls sys fd mt r pre :
  run (Unix.assign_cloexec sys fd mt) = (r, pre) ->
  Unix.mapping_calls pre = [] /\
  forall e, ~ In (Unix.SetErrno e) pre.
Proof.
  unfold run. intros H.
  destruct (unix_cloexec_log _ _ _ _ _ _ H) as [->|[flags ->]].
  - split; [reflexivity | intros e []].
  - split; [reflexivity|]. intros e [E|[]]. discriminate E.
Qed.





(** ** C9: the fallback without a granularity *)

(** C9. When the granularity query yields a value that is not positive,
    [mmapio_open_rest], behind the allocation and the earlier checks,
    goes on to the mapping block with a shift of zero, the size in force
    and the offset of the caller as it is; it does not fail on that
    account and [errno] is left alone: every mapping call of the open
    has that size and that offset, and a handle it returns has shift
    zero and a length equal to the size. [size] is the requested size
    when extend-to-end is unset. On Unix the offset reaches [mmap]
    converted to [off_t], which keeps its 64 bits and, for an offset up
    to [OFF_MAX], its value. *)
Theorem granularity_fallback
  (usys : Unix.os) (wsys : Win32.os)
  (fd : Z) (mt : mmapio_mode_tag) (sz off : Z) :
  in_size_t sz -> in_size_t off ->
  (forall pre,
     Unix.sys_calloc usys = true ->
     run (Unix.assign_cloexec usys fd mt) = (Some false, pre) ->
     Unix.sys_page_size usys <= 0 ->
     let size := Unix.fix_map_size usys fd mt sz off in
     let r := run (Unix.mmapio_open_rest usys fd mt sz off) in
     (is_set (end_ mt) = false -> size = sz) /\
     r = Unix.map_and_initialize usys fd mt size 0 (off_t off) pre /\
     Unix.mapping_calls (snd r) = [(size, off_t off)] /\
     size_t (off_t off) = off /\
     (off <= OFF_MAX -> off_t off = off) /\
     (forall e, ~ In (Unix.SetErrno e) (snd r)) /\
     (forall m, fst r = Some m ->
        Unix.shift (self m) = 0 /\ mmapio_length m = size))
  /\
  (forall size,
     Win32.sys_calloc wsys = true ->
     run (Win32.fix_map_size fd mt (Win32.mmapio_file_size_e wsys fd) sz off)
       = (Some size, []) ->
     Win32.sys_granularity wsys <= 0 ->
     let r := run (Win32.mmapio_open_rest wsys fd mt sz off) in
     (is_set (end_ mt) = false -> size = sz) /\
     r = Win32.map_and_initialize wsys fd mt
           (Win32.mmapio_file_size_e wsys fd) size 0 off size [] /\
     (forall c, In c (Win32.mapping_calls (snd r)) -> c = (size, off)) /\
     (forall e, ~ In (Win32.SetErrno e) (snd r)) /\
     (forall m, fst r = Some m ->
        Win32.mapping_calls (snd r) = [(size, off)] /\
        Win32.shift (self m) = 0 /\ mmapio_length m = size)).
Proof.
  intros Hsz Hoff. split.
  - intros pre C G P size r.
    pose proof (unix_map_size_range usys fd mt sz off Hsz) as R.
    fold size in R.
    destruct (unix_cloexec_calls _ _ _ _ _ G) as [Pc Pe].
    assert (Er : r = Unix.map_and_initialize usys fd mt size 0 (off_t off) pre).
    { unfold r, run. rewrite (unix_open_rest_checks _ _ _ _ _ _ _ C G).
      unfold bind, Unix.fix_to_page_sizes.
      apply Z.ltb_ge in P. rewrite P. reflexivity. }
    destruct (unix_map_calls usys fd mt size 0 (off_t off) pre)
      as (Mc & Me & Mm).
    rewrite <- Er in Mc, Me, Mm. rewrite Pc in Mc.
    split; [unfold size, Unix.fix_map_size; now intros ->|].
    split; [exact Er|]. split; [exact Mc|].
    split; [now apply off_t_bits|].
    split; [intros Hfit; apply off_t_id; unfold in_size_t in *; lia|].
    split; [intros e He; apply (Pe e); now apply Me|].
    intros m Hm. destruct (Mm m Hm) as (L1 & L2 & L3).
    split; [exact L2|].
    unfold mmapio_length. rewrite L3. unfold Unix.mmapio_mmi_length.
    rewrite L1, L2, Z.sub_0_r. now apply size_t_id.
  - intros size C G P r.
    pose proof G as G'. unfold run in G'.
    apply win32_map_size_ok in G'. destruct G' as [_ S].
    assert (R : in_size_t size).
    { destruct S as [(_ & _ & ->)|(_ & _ & ->)];
        [apply size_t_range | assumption]. }
    assert (Er : r = Win32.map_and_initialize wsys fd mt
                       (Win32.mmapio_file_size_e wsys fd) size 0 off size []).
    { unfold r, run. rewrite (win32_open_rest_checks _ _ _ _ _ _ _ C G).
      unfold bind, Win32.fix_to_granularity.
      apply Z.ltb_ge in P. rewrite P. reflexivity. }
    destruct (win32_map_calls wsys fd mt (Win32.mmapio_file_size_e wsys fd)
                size 0 off size [] Hoff) as (Mc & Me & Mm).
    rewrite <- Er in Mc, Me, Mm.
    split; [intros U; destruct S as [(S & _)|(_ & _ & S)]; congruence|].
    split; [exact Er|].
    split; [intros c Hc; destruct (Mc c Hc) as [[]|E]; exact E|].
    split; [intros e He; apply (Me e He)|].
    intros m Hm. destruct (Mm m Hm) as (L0 & L1 & L2 & L3).
    split; [exact L0|]. split; [exact L2|].
    unfold mmapio_length. rewrite L3. unfold Win32.mmapio_mmi_length.
    rewrite L1, L2, Z.sub_0_r. now apply size_t_id.
Qed.

Lemma granularity_fallback_witness :
  Unix.mapping_calls
    (snd (run (Unix.mmapio_open_rest Examples.linux_no_page_size 3
                 (mmapio_mode_parse "r") 100 10))) = [(100, off_t 10)] /\
  forall c,
    In c (Win32.mapping_calls
            (snd (run (Win32.mmapio_open_rest Examples.windows_no_granularity 3
                         (mmapio_mode_parse "r") 100 10)))) ->
    c = (100, 10).
Proof.
  destruct (granularity_fallback Examples.linux_no_page_size
              Examples.windows_no_granularity
              3 (mmapio_mode_parse "r") 100 10) as [U W].
  - unfold in_size_t, SIZE_MAX. lia.
  - unfold in_size_t, SIZE_MAX. lia.
  - split.
    + apply (U [Unix.SetFd 3 1]).
      * reflexivity.
      * reflexivity.
      * simpl. lia.
    + apply (W 100).
      * reflexivity.
      * reflexivity.
      * simpl. lia.
Defined.

(** ** The checks of the Win32 backend *)

Section Win32Checks.
Variable sys : Win32.os.

(** A size of zero without extend-to-end is rejected, the file closed
    and the storage freed. *)
Lemma win32_rejects_zero_size fd mt off l :
  Win32.sys_calloc sys = true -> is_set (end_ mt) = false ->
  Win32.mmapio_open_rest sys fd mt 0 off l
    = (None, l ++ [Win32.CloseHandle fd; Win32.Free]).
Proof.
  intros C E. unfold Win32.mmapio_open_rest, Win32.fix_map_size. cbv zeta.
  rewrite C, E. mm_unfold. cbn [negb Z.eqb].
  rewrite <- app_assoc. reflexivity.
Qed.

(** Extend-to-end with an offset behind the end of the file is rejected
    in the same way. *)
Lemma win32_rejects_offset_beyond_file fd mt sz off l :
  Win32.sys_calloc sys = true -> is_set (end_ mt) = true ->
  Win32.mmapio_file_size_e sys fd < off ->
  Win32.mmapio_open_rest sys fd mt sz off l
    = (None, l ++ [Win32.CloseHandle fd; Win32.Free]).
Proof.
  intros C E L. unfold Win32.mmapio_open_rest, Win32.fix_map_size. cbv zeta.
  apply Z.ltb_lt in L. rewrite C, E, L. mm_unfold. cbn [negb].
  rewrite <- app_assoc. reflexivity.
Qed.

(** The last block, whatever the two native calls return: a mapping
    object or a view that cannot be had makes the open return [NULL]
    with every handle closed and the storage freed. *)
Lemma win32_map_run fd mt size_clamp fullsize fullshift fulloff ext l :
  let inherit := is_set (bequeath mt) in
  let fullextent :=
    if size_t (ext + fulloff) <? size_clamp
    then size_t (ext + fulloff) else size_clamp in
  let protect := Win32.mmapio_mode_prot_cvt (mode mt) in
  let high := Win32.high_dword fullextent in
  let low := Win32.low_dword fullextent in
  let fmd := Win32.sys_CreateFileMappingA sys fd inherit protect high low in
  let access := Win32.mmapio_mode_access_cvt mt in
  let p := Win32.sys_MapViewOfFile sys fmd access
             (Win32.high_dword fulloff) (Win32.low_dword fulloff) fullsize in
  Win32.map_and_initialize sys fd mt size_clamp fullsize fullshift fulloff ext l =
  if fmd =? NULL then
    (None, l ++ [Win32.CreateFileMapping fd inherit protect high low;
                 Win32.CloseHandle fd; Win32.Free])
  else if p =? NULL then
    (None, l ++ [Win32.CreateFileMapping fd inherit protect high low;
                 Win32.MapView fmd access (Win32.high_dword fulloff)
                   (Win32.low_dword fulloff) fullsize;
                 Win32.CloseHandle fmd; Win32.CloseHandle fd; Win32.Free])
  else
    (Some (Win32.initialize (Win32.mk_win32 p fullsize fullshift fmd fd)),
     l ++ [Win32.CreateFileMapping fd inherit protect high low;
           Win32.MapView fmd access (Win32.high_dword fulloff)
             (Win32.low_dword fulloff) fullsize]).
Proof.
  cbv zeta. unfold Win32.map_and_initialize. mm_unfold.
  destruct (_ =? NULL); [now rewrite <- !app_assoc|].
  destruct (_ =? NULL); now rewrite <- !app_assoc.
Qed.

End Win32Checks.

(** ** Where the Unix backend lets a request through *)

(** C5, at its failing input. [mmap] fails and returns [MAP_FAILED];
    [mmapio_open] checks the pointer against [NULL] only, so it returns
    a handle around [MAP_FAILED], with the descriptor open and the
    storage in use: the log holds no [Close] and no [Free]. *)
Theorem failed_mmap_is_returned_as_handle :
  run (Unix.mmapio_open Examples.linux_no_memory "data.bin" "r" 100 0)
    = (Some (Unix.initialize (Unix.mk_unix Unix.MAP_FAILED 100 0 3)),
       [Unix.Open "data.bin" (Z.lor Unix.O_RDONLY Unix.O_CLOEXEC);
        Unix.SetFd 3 Unix.FD_CLOEXEC;
        Unix.Mmap 100 Unix.PROT_READ Unix.MAP_SHARED 3 0]).
Proof. reflexivity. Qed.

(** The same on every system: whenever [mmap] reports its failure, the
    last block hands out a handle and releases nothing. *)
Lemma unix_map_failed_is_kept (sys : Unix.os) fd mt fullsize fullshift fulloff l :
  Unix.sys_mmap sys fullsize (Unix.mmapio_mode_prot_cvt (mode mt))
    (Unix.mmapio_mode_flag_cvt (privy mt)) fd fulloff = Unix.MAP_FAILED ->
  Unix.map_and_initialize sys fd mt fullsize fullshift fulloff l
    = (Some (Unix.initialize
               (Unix.mk_unix Unix.MAP_FAILED fullsize fullshift fd)),
       l ++ [Unix.Mmap fullsize (Unix.mmapio_mode_prot_cvt (mode mt))
               (Unix.mmapio_mode_flag_cvt (privy mt)) fd fulloff]).
Proof.
  intros F. rewrite unix_map_run. cbv zeta. rewrite F. reflexivity.
Qed.

(** C10, at its failing input. The handle of a failed [mmap] is a
    handle of a successful open all the same (C5); with an offset of 1
    its shift is 1, and [mmapio_acquire], the pointer plus the shift,
    is [MAP_FAILED + 1], which is [NULL]: the failure value that its
    interface permits and that the claim excludes. *)
Theorem acquire_returns_null_after_failed_mmap :
  let m := Unix.initialize (Unix.mk_unix Unix.MAP_FAILED 101 1 3) in
  run (Unix.mmapio_open Examples.linux_no_memory "data.bin" "r" 100 1)
    = (Some m,
       [Unix.Open "data.bin" (Z.lor Unix.O_RDONLY Unix.O_CLOEXEC);
        Unix.SetFd 3 Unix.FD_CLOEXEC;
        Unix.Mmap 101 Unix.PROT_READ Unix.MAP_SHARED 3 0]) /\
  Unix.opened Examples.linux_no_memory "r" 100 1 m /\
  mmapio_acquire m = NULL.
Proof.
  cbv zeta. split; [reflexivity|]. split; [|reflexivity].
  apply Unix.by_open with (nm := "data.bin"%string)
                          (log := [Unix.Open "data.bin" 524288;
                                   Unix.SetFd 3 1;
                                   Unix.Mmap 101 1 1 3 0]).
  reflexivity.
Qed.

(** C4, at its failing inputs. Mode ["w"], size 0, extend-to-end unset:
    at offset 10 the shift makes the mapped length 10, [mmap] succeeds
    and the open returns a handle of length 0; at offset 0 [mmap] is
    asked for 0 bytes, fails, and its [MAP_FAILED] is wrapped in a
    handle. The Unix [mmapio_open_rest] has no check of the size. *)
Theorem zero_size_is_not_rejected_on_unix :
  run (Unix.mmapio_open Examples.linux "data.bin" "w" 0 10)
    = (Some (Unix.initialize (Unix.mk_unix 0x7f3a00000000 10 10 3)),
       [Unix.Open "data.bin" (Z.lor Unix.O_RDWR Unix.O_CLOEXEC);
        Unix.SetFd 3 Unix.FD_CLOEXEC;
        Unix.Mmap 10 (Z.lor Unix.PROT_WRITE Unix.PROT_READ)
          Unix.MAP_SHARED 3 0]) /\
  mmapio_length (Unix.initialize (Unix.mk_unix 0x7f3a00000000 10 10 3)) = 0 /\
  run (Unix.mmapio_open Examples.linux "data.bin" "w" 0 0)
    = (Some (Unix.initialize (Unix.mk_unix Unix.MAP_FAILED 0 0 3)),
       [Unix.Open "data.bin" (Z.lor Unix.O_RDWR Unix.O_CLOEXEC);
        Unix.SetFd 3 Unix.FD_CLOEXEC;
        Unix.Mmap 0 (Z.lor Unix.PROT_WRITE Unix.PROT_READ)
          Unix.MAP_SHARED 3 0]).
Proof. repeat split. Qed.

(** C2, at its failing input. The file has 4096 bytes; mode ["re"] at
    offset 5000 sets the size to 0 "to fail", but the shift of 904 makes
    the mapped length 904, [mmap] succeeds behind the end of the file,
    and the open returns a handle of length 0. *)
Theorem extend_beyond_file_is_not_rejected_on_unix :
  Unix.mmapio_file_size_e Examples.linux 3 = 4096 /\
  run (Unix.mmapio_open Examples.linux "data.bin" "re" 0 5000)
    = (Some (Unix.initialize (Unix.mk_unix 0x7f3a00000000 904 904 3)),
       [Unix.Open "data.bin" (Z.lor Unix.O_RDONLY Unix.O_CLOEXEC);
        Unix.SetFd 3 Unix.FD_CLOEXEC;
        Unix.Mmap 904 Unix.PROT_READ Unix.MAP_SHARED 3 4096]) /\
  mmapio_length (Unix.initialize (Unix.mk_unix 0x7f3a00000000 904 904 3)) = 0.
Proof. repeat split. Qed.

(** The rest of C2 holds on both backends: with extend-to-end set and
    the offset inside the file, the size argument is not looked at and
    a handle has the length of the rest of the file. *)
Lemma extend_length_is_rest_of_file
  (usys : Unix.os) (wsys : Win32.os) fd mt sz off :
  in_size_t sz -> in_size_t off -> is_set (end_ mt) = true ->
  (forall m l l',
     off <= Unix.mmapio_file_size_e usys fd ->
     Unix.mmapio_open_rest usys fd mt sz off l = (Some m, l') ->
     mmapio_length m = Unix.mmapio_file_size_e usys fd - off)
  /\
  (forall m l l',
     Win32.mmapio_open_rest wsys fd mt sz off l = (Some m, l') ->
     off <= Win32.mmapio_file_size_e wsys fd /\
     mmapio_length m = Win32.mmapio_file_size_e wsys fd - off).
Proof.
  intros Hsz Hoff E. split.
  - intros m l l' Hin H.
    destruct (unix_handle _ _ _ _ _ _ _ _ Hsz Hoff H)
      as (_ & L & _ & _ & Hl & _).
    unfold Unix.fix_map_size in Hl. rewrite E in Hl.
    apply Z.ltb_ge in Hin. rewrite Hin in Hl. apply Z.ltb_ge in Hin.
    assert (R : in_size_t (Unix.mmapio_file_size_e usys fd)).
    { unfold Unix.mmapio_file_size_e. destruct (Unix.sys_fstat usys fd);
        [apply size_t_range | unfold in_size_t, SIZE_MAX; lia]. }
    rewrite size_t_id in Hl by (unfold in_size_t in *; lia).
    unfold mmapio_length. rewrite L. unfold Unix.mmapio_mmi_length.
    rewrite Hl.
    replace (Unix.mmapio_file_size_e usys fd - off + Unix.shift (self m)
             - Unix.shift (self m))
      with (Unix.mmapio_file_size_e usys fd - off) by lia.
    apply size_t_id. unfold in_size_t in *. lia.
  - intros m l l' H.
    destruct (win32_handle _ _ _ _ _ _ _ _ Hsz Hoff H)
      as (sz' & S & _ & _ & L & _ & _ & Hl & _).
    apply win32_map_size_ok in S. destruct S as [_ S].
    destruct S as [(_ & Hin & ->)|(U & _)]; [|congruence].
    split; [exact Hin|].
    assert (R : in_size_t (Win32.mmapio_file_size_e wsys fd)).
    { unfold Win32.mmapio_file_size_e.
      destruct (Win32.sys_GetFileSizeEx wsys fd);
        [apply size_t_range | unfold in_size_t, SIZE_MAX; lia]. }
    rewrite size_t_id in Hl by (unfold in_size_t in *; lia).
    unfold mmapio_length. rewrite L. unfold Win32.mmapio_mmi_length.
    rewrite Hl.
    replace (Win32.mmapio_file_size_e wsys fd - off + Win32.shift (self m)
             - Win32.shift (self m))
      with (Win32.mmapio_file_size_e wsys fd - off) by lia.
    apply size_t_id. unfold in_size_t in *. lia.
Qed.

(** ** A mode text without an access character *)

(** Without ['r'] and ['w'] in the text the access mode stays cleared. *)
Lemma no_access_token_mode n s out :
  ~ In mmapio_mode_read (chars s) -> ~ In mmapio_mode_write (chars s) ->
  mode (mode_parse_loop n s out) = mode out.
Proof.
  revert s out. induction n as [|n IH]; intros s out Hr Hw; [reflexivity|].
  destruct s as [|c rest]; [reflexivity|].
  cbn [mode_parse_loop chars list_ascii_of_string] in *.
  destruct (Ascii.eqb c NUL); [reflexivity|].
  rewrite IH by (intros H; (apply Hr + apply Hw); now right).
  unfold mode_switch.
  destruct (Ascii.eqb c mmapio_mode_write) eqn:Ew.
  { apply Ascii.eqb_eq in Ew. exfalso. apply Hw. now left. }
  destruct (Ascii.eqb c mmapio_mode_read) eqn:Er.
  { apply Ascii.eqb_eq in Er. exfalso. apply Hr. now left. }
  destruct (Ascii.eqb c mmapio_mode_end); [reflexivity|].
  destruct (Ascii.eqb c mmapio_mode_private); [reflexivity|].
  destruct (Ascii.eqb c mmapio_mode_bequeath); reflexivity.
Qed.

(** Such a text translates to the zero of every translator, and the
    Unix [mmapio_open] hands that zero to [open] and goes on: no open
    function looks at the value before the native call. *)
Lemma no_access_token_is_passed_on (sys : Unix.os) nm s sz off :
  ~ In mmapio_mode_read (chars s) -> ~ In mmapio_mode_write (chars s) ->
  let mt := mmapio_mode_parse s in
  Unix.mmapio_mode_rw_cvt (mode mt) = 0 /\
  Unix.mmapio_mode_prot_cvt (mode mt) = 0 /\
  Win32.mmapio_mode_rw_cvt (mode mt) = 0 /\
  Win32.mmapio_mode_prot_cvt (mode mt) = 0 /\
  Win32.mmapio_mode_access_cvt mt = 0 /\
  (Unix.sys_open sys nm 0 <> -1 ->
   run (Unix.mmapio_open sys nm s sz off)
     = Unix.mmapio_open_rest sys (Unix.sys_open sys nm 0) mt sz off
         [Unix.Open nm 0]).
Proof.
  intros Hr Hw mt.
  assert (E : mode mt = NUL)
    by (unfold mt, mmapio_mode_parse; now rewrite no_access_token_mode).
  assert (E0 : Unix.mmapio_mode_rw_cvt NUL = 0) by reflexivity.
  unfold Win32.mmapio_mode_access_cvt, Unix.mmapio_open. fold mt.
  rewrite E, E0. repeat split.
  intros H. apply Z.eqb_neq in H. mm_unfold. rewrite H. reflexivity.
Qed.

(** C3, at its failing input. Mode ["x"] names no access: the file is
    opened with the flags 0, which is [O_RDONLY], mapped with the
    protection 0, which is no access at all, and [mmapio_open] returns
    a handle whose bytes cannot be read. *)
Theorem missing_access_token_opens_on_unix :
  mode (mmapio_mode_parse "x") = NUL /\
  Unix.mmapio_mode_rw_cvt NUL = 0 /\
  Unix.O_RDONLY = 0 /\
  run (Unix.mmapio_open Examples.linux "data.bin" "x" 100 0)
    = (Some (Unix.initialize (Unix.mk_unix 0x7f3a00000000 100 0 3)),
       [Unix.Open "data.bin" 0;
        Unix.SetFd 3 Unix.FD_CLOEXEC;
        Unix.Mmap 100 0 Unix.MAP_SHARED 3 0]).
Proof. repeat split. Qed.

(** ** The UTF-8 decoder *)

(** The decoder loop never runs out of rounds: a round consumes at
    least one byte. *)
Lemma u8towc_loop_total fuel p n out :
  (List.length p < fuel)%nat -> Win32.u8towc_loop fuel p n out <> None.
Proof.
  revert p n out. induction fuel as [|fuel IH]; intros p n out Hlen; [lia|].
  destruct p as [|v rest]; [discriminate|].
  cbn [Win32.u8towc_loop]. simpl in Hlen.
  assert (S1 : forall k, (List.length (skipn k rest) < fuel)%nat).
  { intros k. rewrite length_skipn. lia. }
  repeat match goal with
         | |- (if ?b then _ else _) <> None => destruct b
         | |- match ?o with Some _ => _ | None => _ end <> None => destruct o
         | |- Some _ <> None => discriminate
         | |- Win32.u8towc_loop _ _ _ _ <> None => apply IH; auto; lia
         end.
Qed.

Lemma mmapio_u8towc_shim_total nm out :
  Win32.mmapio_u8towc_shim nm out <> None.
Proof. apply u8towc_loop_total. lia. Qed.

(** The first byte the loop "check extension codes" looks at is the
    lead byte itself: from index 0 it fails on every lead byte. *)
Lemma extension_codes_on_lead k v rest qv :
  0xC0 <= v -> Win32.extension_codes (S k) 0 (v :: rest) qv = None.
Proof.
  intros H. cbn [Win32.extension_codes Win32.peek nth].
  apply Z.leb_le in H. rewrite H. now rewrite orb_true_r.
Qed.

(** So every name that starts with a multi-byte sequence is refused, a
    well-formed one as well. *)
Lemma u8_sequence_is_rejected v rest out :
  0x80 <= v ->
  Win32.mmapio_u8towc_shim (v :: rest) out
    = Some (Win32.mk_shim Win32.MMAPIO_EILSEQ None out).
Proof.
  intros H. unfold Win32.mmapio_u8towc_shim.
  cbn [List.length Win32.u8towc_loop].
  assert (E0 : (v =? 0) = false) by (apply Z.eqb_neq; lia).
  assert (E1 : (v <? 0x80) = false) by (apply Z.ltb_ge; lia).
  rewrite E0, E1.
  change (0 <? Win32.sz_max) with true.
  change (Win32.sz_max <=? 0) with false. cbn [negb orb].
  destruct (v <? 0xC0) eqn:E2; [reflexivity|].
  apply Z.ltb_ge in E2.
  rewrite !extension_codes_on_lead by assumption.
  destruct (v <? 0xE0); [reflexivity|].
  destruct (v <? 0xF0); [reflexivity|].
  destruct (v <? 0xF8); reflexivity.
Qed.

(** C8, at its failing input. The two bytes C3 A9 are the well-formed
    UTF-8 of U+00E9; the decoder returns [MMAPIO_EILSEQ] for them,
    [mmapio_u8towc] returns [NULL], and [mmapio_u8open] gives up before
    any native call. A name of ASCII bytes is decoded. *)
Theorem two_byte_sequence_is_rejected :
  Win32.mmapio_u8towc_shim [0xC3; 0xA9] None
    = Some (Win32.mk_shim Win32.MMAPIO_EILSEQ None None) /\
  Win32.mmapio_u8towc Examples.windows [0xC3; 0xA9] = None /\
  run (Win32.mmapio_u8open Examples.windows [0xC3; 0xA9] "r" 100 0)
    = (None, []) /\
  Win32.mmapio_u8towc Examples.windows [0x41; 0x42] = Some [0x41; 0x42; 0].
Proof. repeat split. Qed.

(** * Further properties of the code *)

(** ** The mode parser *)

Lemma mode_parse_loop_prefix n s out :
  mode_parse_loop n (substring 0 n s) out = mode_parse_loop n s out.
Proof.
  revert s out. induction n as [|n IH]; intros s out; [reflexivity|].
  destruct s as [|c rest]; [reflexivity|].
  cbn [substring mode_parse_loop]. now rewrite IH.
Qed.

Lemma mode_parse_loop_nul n s1 s2 out :
  ~ In NUL (chars s1) ->
  mode_parse_loop n (s1 ++ String NUL s2) out = mode_parse_loop n s1 out.
Proof.
  revert s1 out. induction n as [|n IH]; intros s1 out H; [reflexivity|].
  destruct s1 as [|c rest].
  - cbn [append mode_parse_loop]. now rewrite Ascii.eqb_refl.
  - cbn [append mode_parse_loop chars list_ascii_of_string] in *.
    destruct (Ascii.eqb c NUL); [reflexivity|].
    apply IH. intros I. apply H. now right.
Qed.

(** X1. [mmapio_mode_parse] reads the first 8 characters of the text
    and nothing behind them, and nothing behind a NUL. *)
Theorem mode_parse_reads_a_bounded_prefix (s s2 : string) :
  mmapio_mode_parse s = mmapio_mode_parse (substring 0 8 s) /\
  (~ In NUL (chars s) ->
   mmapio_mode_parse (s ++ String NUL s2) = mmapio_mode_parse s).
Proof.
  unfold mmapio_mode_parse. split.
  - now rewrite mode_parse_loop_prefix.
  - intros H. now apply mode_parse_loop_nul.
Qed.

Lemma mode_parse_reads_a_bounded_prefix_witness :
  mmapio_mode_parse ("re" ++ String NUL "w") = mmapio_mode_parse "re".
Proof.
  apply (mode_parse_reads_a_bounded_prefix "re" "w").
  unfold chars, NUL. simpl.
  intros H. repeat (destruct H as [H|H]; [discriminate H|]). exact H.
Defined.

Lemma mode_switch_unrecognised c out :
  recognised c = false -> mode_switch c out = out.
Proof.
  unfold recognised, mode_switch. intros H.
  repeat (apply orb_false_elim in H; destruct H as [H ?]).
  repeat match goal with E : _ = false |- _ => rewrite E; clear E end.
  reflexivity.
Qed.

Lemma scan_filter cs out : scan (filter recognised cs) out = scan cs out.
Proof.
  revert out. induction cs as [|c cs IH]; intros out; [reflexivity|].
  cbn [filter]. destruct (recognised c) eqn:E.
  - rewrite !scan_cons. apply IH.
  - rewrite scan_cons, (mode_switch_unrecognised _ _ E). apply IH.
Qed.

Lemma chars_of_list l : chars (string_of_list_ascii l) = l.
Proof. apply list_ascii_of_string_of_list_ascii. Qed.

(** X2. Characters without a case in the [switch] are skipped: a text
    of at most 8 characters parses like the text of its recognised
    characters alone. *)
Theorem mode_parse_skips_unrecognised (s : string) :
  short_text s ->
  mmapio_mode_parse s =
  mmapio_mode_parse (string_of_list_ascii (filter recognised (chars s))).
Proof.
  intros [Hlen Hnul]. unfold mmapio_mode_parse.
  rewrite !loop_is_scan; try assumption.
  - rewrite chars_of_list. symmetry. apply scan_filter.
  - rewrite <- chars_length, chars_of_list.
    pose proof (filter_length_le recognised (chars s)) as L.
    rewrite chars_length in L. lia.
  - rewrite chars_of_list. intros I. apply filter_In in I.
    apply Hnul. apply I.
Qed.

Lemma mode_parse_skips_unrecognised_witness :
  mmapio_mode_parse "r+e b" = mmapio_mode_parse "re".
Proof.
  apply (mode_parse_skips_unrecognised "r+e b").
  split.
  - simpl. lia.
  - unfold chars, NUL. simpl.
    intros H. repeat (destruct H as [H|H]; [discriminate H|]). exact H.
Defined.

(** X3. The three flags of the tag are set exactly when their character
    stands in the text, however often and wherever: ['e'] sets
    extend-to-end, ['p'] private and ['q'] inheritance. *)
Theorem mode_parse_flags (s : string) :
  short_text s ->
  let mt := mmapio_mode_parse s in
  is_set (end_ mt) = has mmapio_mode_end (chars s) /\
  is_set (privy mt) = has mmapio_mode_private (chars s) /\
  is_set (bequeath mt) = has mmapio_mode_bequeath (chars s).
Proof.
  intros [Hlen Hnul] mt. unfold mt, mmapio_mode_parse.
  rewrite loop_is_scan by assumption.
  rewrite scan_end, scan_privy, scan_bequeath. cbn [end_ privy bequeath].
  repeat split.
  - destruct (has mmapio_mode_end (chars s)); reflexivity.
  - destruct (has mmapio_mode_private (chars s)); reflexivity.
  - destruct (has mmapio_mode_bequeath (chars s)); reflexivity.
Qed.

Lemma mode_parse_flags_witness :
  is_set (end_ (mmapio_mode_parse "repe")) = true /\
  is_set (privy (mmapio_mode_parse "repe")) = true /\
  is_set (bequeath (mmapio_mode_parse "repe")) = false.
Proof.
  apply (mode_parse_flags "repe").
  split.
  - simpl. lia.
  - unfold chars, NUL. simpl.
    intros H. repeat (destruct H as [H|H]; [discriminate H|]). exact H.
Defined.

Lemma scan_app a b out : scan (a ++ b) out = scan b (scan a out).
Proof. unfold scan. apply fold_left_app. Qed.

(** X4. Of several access characters the last one decides: when ['r']
    or ['w'] stands in the text and neither follows it, it is the
    access mode of the tag. *)
Theorem mode_parse_last_access_wins (s : string) (a b : list ascii) (c : ascii) :
  short_text s ->
  chars s = a ++ c :: b ->
  c = mmapio_mode_read \/ c = mmapio_mode_write ->
  ~ In mmapio_mode_read b -> ~ In mmapio_mode_write b ->
  mode (mmapio_mode_parse s) = c.
Proof.
  intros [Hlen Hnul] E Hc Hr Hw. unfold mmapio_mode_parse.
  rewrite loop_is_scan by assumption.
  rewrite E, scan_app, scan_cons, scan_mode by tauto.
  destruct (has mmapio_mode_write b) eqn:W.
  { apply has_In in W. contradiction. }
  destruct (has mmapio_mode_read b) eqn:R.
  { apply has_In in R. contradiction. }
  destruct Hc as [-> | ->]; reflexivity.
Qed.

Lemma mode_parse_last_access_wins_witness :
  mode (mmapio_mode_parse "wrwe") = mmapio_mode_write.
Proof.
  apply (mode_parse_last_access_wins "wrwe"
           ["w"; "r"]%char ["e"]%char "w"%char).
  - split.
    + simpl. lia.
    + unfold chars, NUL. simpl.
      intros H. repeat (destruct H as [H|H]; [discriminate H|]). exact H.
  - reflexivity.
  - now right.
  - unfold mmapio_mode_read. simpl. intros [H|H]; [discriminate H | exact H].
  - unfold mmapio_mode_write. simpl. intros [H|H]; [discriminate H | exact H].
Defined.

(** An access character anywhere in the text leaves an access mode. *)
Lemma scan_mode_set cs out :
  mode out = mmapio_mode_read \/ mode out = mmapio_mode_write \/
  In mmapio_mode_read cs \/ In mmapio_mode_write cs ->
  mode (scan cs out) = mmapio_mode_read \/
  mode (scan cs out) = mmapio_mode_write.
Proof.
  revert out. induction cs as [|c cs IH]; intros out H.
  - cbn in *. tauto.
  - rewrite scan_cons. apply IH. unfold mode_switch.
    destruct (Ascii.eqb c mmapio_mode_write) eqn:Ew; [cbn; tauto|].
    destruct (Ascii.eqb c mmapio_mode_read) eqn:Er; [cbn; tauto|].
    apply Ascii.eqb_neq in Ew, Er.
    assert (H' : mode out = mmapio_mode_read \/ mode out = mmapio_mode_write \/
                 In mmapio_mode_read cs \/ In mmapio_mode_write cs).
    { destruct H as [H|[H|[[H|H]|[H|H]]]]; auto; congruence. }
    destruct (Ascii.eqb c mmapio_mode_end); [exact H'|].
    destruct (Ascii.eqb c mmapio_mode_private); [exact H'|].
    destruct (Ascii.eqb c mmapio_mode_bequeath); exact H'.
Qed.

(** X5. For a text of at most 8 characters, the Unix protection and the
    three Win32 translators return their zero exactly when the text
    holds neither ['r'] nor ['w']. The Unix open flags are zero for such
    a text as well, but not only for it: they are [O_RDONLY], which is
    0, joined with [fast_no_bequeath], so in a build without [O_CLOEXEC]
    (or with one of 0) the access mode ['r'] translates to 0 like a
    text without access; with [O_CLOEXEC] as on Linux they are zero
    exactly for a text without access. *)
Theorem access_translation_zero_iff (s : string) :
  short_text s ->
  let mt := mmapio_mode_parse s in
  let no_access :=
    ~ In mmapio_mode_read (chars s) /\ ~ In mmapio_mode_write (chars s) in
  (Unix.mmapio_mode_prot_cvt (mode mt) = 0 <-> no_access) /\
  (Win32.mmapio_mode_rw_cvt (mode mt) = 0 <-> no_access) /\
  (Win32.mmapio_mode_prot_cvt (mode mt) = 0 <-> no_access) /\
  (Win32.mmapio_mode_access_cvt mt = 0 <-> no_access) /\
  (forall o_cloexec : option Z,
     let fast_no_bequeath :=
       match o_cloexec with Some v => v | None => 0 end in
     Unix.mmapio_mode_rw_cvt_build o_cloexec (mode mt) = 0 <->
     no_access \/ (mode mt = mmapio_mode_read /\ fast_no_bequeath = 0)) /\
  Unix.mmapio_mode_rw_cvt (mode mt)
    = Unix.mmapio_mode_rw_cvt_build (Some Unix.O_CLOEXEC) (mode mt) /\
  (Unix.mmapio_mode_rw_cvt (mode mt) = 0 <-> no_access).
Proof.
  intros [Hlen Hnul] mt no_access.
  assert (C : (no_access /\ mode mt = NUL) \/
              (~ no_access /\
               (mode mt = mmapio_mode_read \/ mode mt = mmapio_mode_write))).
  { unfold no_access.
    destruct (in_dec ascii_dec mmapio_mode_read (chars s)) as [Ir|Nr];
      [|destruct (in_dec ascii_dec mmapio_mode_write (chars s)) as [Iw|Nw]].
    - right. split; [tauto|].
      unfold mt, mmapio_mode_parse. rewrite loop_is_scan by assumption.
      apply scan_mode_set. tauto.
    - right. split; [tauto|].
      unfold mt, mmapio_mode_parse. rewrite loop_is_scan by assumption.
      apply scan_mode_set. tauto.
    - left. split; [tauto|].
      unfold mt, mmapio_mode_parse. now rewrite no_access_token_mode. }
  clearbody mt no_access.
  assert (B : forall o_cloexec : option Z,
             Unix.mmapio_mode_rw_cvt_build o_cloexec (mode mt) = 0 <->
             no_access \/
             (mode mt = mmapio_mode_read /\
              match o_cloexec with Some v => v | None => 0 end = 0)).
  { intros o. unfold Unix.mmapio_mode_rw_cvt_build. cbv zeta.
    destruct C as [[Y E]|[N [E|E]]]; rewrite E.
    - cbn [Ascii.eqb Bool.eqb NUL mmapio_mode_write mmapio_mode_read].
      split; [intros _; now left | reflexivity].
    - cbn [Ascii.eqb Bool.eqb mmapio_mode_write mmapio_mode_read].
      unfold Unix.O_RDONLY. rewrite Z.lor_0_l.
      split; [intros H; right; now split | intros [H|[_ H]]; tauto].
    - cbn [Ascii.eqb Bool.eqb mmapio_mode_write mmapio_mode_read].
      rewrite Z.lor_eq_0_iff. unfold Unix.O_RDWR.
      split; [intros [H _]; discriminate H|].
      intros [H|[H _]]; [contradiction | discriminate H]. }
  unfold Win32.mmapio_mode_access_cvt.
  split; [|split; [|split; [|split; [|split; [exact B|]]]]].
  5: { split; [reflexivity|].
       destruct C as [[Y E]|[N [E|E]]]; rewrite E;
         split; intros H; try discriminate H; tauto. }
  all: destruct C as [[Y E]|[N [E|E]]]; rewrite E;
    try destruct (is_set (privy mt));
    split; intros H; try discriminate H; tauto.
Qed.

Lemma access_translation_zero_iff_witness :
  Unix.mmapio_mode_rw_cvt_build None (mode (mmapio_mode_parse "r")) = 0 /\
  Unix.mmapio_mode_rw_cvt (mode (mmapio_mode_parse "pq")) = 0.
Proof.
  assert (T : forall s, (String.length s <= 2)%nat ->
              (forall c, In c (chars s) -> c <> NUL) -> short_text s).
  { intros s L N. split; [lia|]. intros I. now apply (N NUL). }
  split.
  - apply (access_translation_zero_iff "r").
    + apply T; [simpl; lia|].
      intros c [<-|[]]. discriminate.
    + right. split; reflexivity.
  - apply (access_translation_zero_iff "pq").
    + apply T; [simpl; lia|].
      intros c [<-|[<-|[]]]; discriminate.
    + unfold chars, mmapio_mode_read, mmapio_mode_write. simpl. split.
      * intros H. repeat (destruct H as [H|H]; [discriminate H|]). exact H.
      * intros H. repeat (destruct H as [H|H]; [discriminate H|]). exact H.
Defined.

(** ** Resources on the paths of [mmapio_open_rest] *)

Lemma unix_closes_app fd l l' :
  unix_closes fd (l ++ l') = (unix_closes fd l + unix_closes fd l')%nat.
Proof. unfold unix_closes. now rewrite filter_app, length_app. Qed.

Lemma unix_frees_app l l' :
  unix_frees (l ++ l') = (unix_frees l + unix_frees l')%nat.
Proof. unfold unix_frees. now rewrite filter_app, length_app. Qed.

Lemma unix_setfd_calls_app l l' :
  unix_setfd_calls (l ++ l') = unix_setfd_calls l ++ unix_setfd_calls l'.
Proof. unfold unix_setfd_calls. apply flat_map_app. Qed.

Lemma win32_closes_app h l l' :
  win32_closes h (l ++ l') = (win32_closes h l + win32_closes h l')%nat.
Proof. unfold win32_closes. now rewrite filter_app, length_app. Qed.

Lemma win32_frees_app l l' :
  win32_frees (l ++ l') = (win32_frees l + win32_frees l')%nat.
Proof. unfold win32_frees. now rewrite filter_app, length_app. Qed.

Lemma win32_mapping_objects_app l l' :
  win32_mapping_objects (l ++ l')
    = win32_mapping_objects l ++ win32_mapping_objects l'.
Proof. unfold win32_mapping_objects. apply flat_map_app. Qed.

Ltac count_log :=
  repeat rewrite unix_closes_app; repeat rewrite unix_frees_app;
  repeat rewrite win32_closes_app; repeat rewrite win32_frees_app;
  unfold unix_closes, unix_frees, win32_closes, win32_frees;
  cbn [filter List.length app]; rewrite ?Z.eqb_refl;
  cbn [filter List.length app].

(** The descriptor and the storage of the handle on every path of Unix
    [mmapio_open_rest], behind any calls made before it. *)
Lemma unix_open_rest_release_log
  (sys : Unix.os) (fd : Z) (mt : mmapio_mode_tag) (sz off : Z)
  (l : list Unix.event) :
  let r := Unix.mmapio_open_rest sys fd mt sz off l in
  match fst r with
  | None =>
      unix_closes fd (snd r) = S (unix_closes fd l) /\
      unix_frees (snd r)
        = (unix_frees l + if Unix.sys_calloc sys then 1 else 0)%nat
  | Some m =>
      unix_closes fd (snd r) = unix_closes fd l /\
      unix_frees (snd r) = unix_frees l /\
      Unix.fd (self m) = fd
  end.
Proof.
  cbv zeta.
  unfold Unix.mmapio_open_rest, Unix.assign_cloexec, Unix.fix_to_page_sizes,
    Unix.map_and_initialize.
  mm_unfold.
  destruct (Unix.sys_calloc sys); cbn [negb fst snd].
  2: { count_log. split; lia. }
  repeat match goal with
         | |- context [if ?b then _ else _] => destruct b; cbn [fst snd]
         end;
    count_log; repeat split; lia.
Qed.

(** X6. Unix [mmapio_open_rest], on every path: when it returns [NULL]
    it has closed the descriptor it was given exactly once and freed
    the storage of the handle exactly when it had got it; when it
    returns a handle it has closed and freed nothing, and the handle
    holds that descriptor. *)
Theorem unix_open_rest_releases_on_failure
  (sys : Unix.os) (fd : Z) (mt : mmapio_mode_tag) (sz off : Z)
  (l : list Unix.event) :
  let r := Unix.mmapio_open_rest sys fd mt sz off l in
  match fst r with
  | None =>
      unix_closes fd (snd r) = S (unix_closes fd l) /\
      unix_frees (snd r)
        = (unix_frees l + if Unix.sys_calloc sys then 1 else 0)%nat
  | Some m =>
      unix_closes fd (snd r) = unix_closes fd l /\
      unix_frees (snd r) = unix_frees l /\
      Unix.fd (self m) = fd
  end.
Proof.
  exact (unix_open_rest_release_log sys fd mt sz off l).
Qed.

(** The handles and the storage on every path of Win32
    [mmapio_open_rest]. *)
Lemma win32_open_rest_release_log
  (sys : Win32.os) (fd : Z) (mt : mmapio_mode_tag) (sz off : Z) :
  (forall inherit protect high low,
      Win32.sys_CreateFileMappingA sys fd inherit protect high low <> fd) ->
  let r := run (Win32.mmapio_open_rest sys fd mt sz off) in
  match fst r with
  | None =>
      win32_closes fd (snd r) = 1%nat /\
      win32_frees (snd r) = (if Win32.sys_calloc sys then 1 else 0)%nat /\
      (forall inherit protect high low,
          In (Win32.CreateFileMapping fd inherit protect high low) (snd r) ->
          let fmd :=
            Win32.sys_CreateFileMappingA sys fd inherit protect high low in
          fmd = NULL \/ win32_closes fmd (snd r) = 1%nat)
  | Some m =>
      (forall h, win32_closes h (snd r) = 0%nat) /\
      win32_frees (snd r) = 0%nat /\
      Win32.fd (self m) = fd /\
      Win32.fmd (self m) <> NULL
  end.
Proof.
  intros Hd. cbv zeta.
  unfold run, Win32.mmapio_open_rest. cbv zeta.
  destruct (Win32.sys_calloc sys); cbn [negb].
  2: { mm_unfold. cbn [fst snd]. count_log.
       split; [reflexivity|]. split; [reflexivity|].
       intros i p h lo [E|[]]. discriminate E. }
  unfold bind.
  destruct (Win32.fix_map_size fd mt _ sz off []) as [[size|] l1] eqn:S.
  2: { unfold Win32.fix_map_size in S. mm_unfold.
       destruct (is_set (end_ mt));
         [destruct (_ <? off) in S | destruct (sz =? 0) in S];
         inversion S; subst; cbn [fst snd]; count_log;
           (split; [reflexivity|]; split; [reflexivity|]);
           intros i p h lo [E|[E|[]]]; discriminate E. }
  destruct (win32_map_size_ok _ _ _ _ _ _ _ _ S) as [-> _].
  destruct (Win32.fix_to_granularity sys fd size off [])
    as [[[[[a b] c] d]|] l2] eqn:F.
  2: { unfold Win32.fix_to_granularity in F. mm_unfold.
       destruct (0 <? _) in F; [|discriminate F].
       destruct (_ <=? _) in F; [|discriminate F].
       inversion F; subst; cbn [fst snd]; count_log.
       split; [reflexivity|]. split; [reflexivity|].
       intros i p h lo [E|[E|[E|[]]]]; discriminate E. }
  destruct (win32_granularity_ok _ _ _ _ _ _ _ _ _ _ F) as [-> _].
  rewrite win32_map_run. cbv zeta.
  match goal with
  | |- context [Win32.sys_CreateFileMappingA sys fd ?i ?p ?h ?lo] =>
      pose proof (Hd i p h lo) as Hne;
      set (fmd := Win32.sys_CreateFileMappingA sys fd i p h lo) in *
  end.
  assert (E1 : (fmd =? fd) = false) by now apply Z.eqb_neq.
  assert (E2 : (fd =? fmd) = false) by (apply Z.eqb_neq; congruence).
  destruct (fmd =? NULL) eqn:N1; cbn [fst snd app].
  - apply Z.eqb_eq in N1. count_log. rewrite ?E1, ?E2.
    split; [reflexivity|]. split; [reflexivity|].
    intros i p h lo [E|[E|[E|[]]]]; try discriminate E.
    inversion E; subst. left. exact N1.
  - destruct (Win32.sys_MapViewOfFile sys fmd _ _ _ _ =? NULL) eqn:N2;
      cbn [fst snd app].
    + count_log. rewrite ?E1, ?E2. cbn [List.length].
      split; [reflexivity|]. split; [reflexivity|].
      intros i p h lo [E|[E|[E|[E|[E|[]]]]]]; try discriminate E.
      inversion E; subst. right. fold fmd.
      rewrite ?E1, ?E2, ?Z.eqb_refl. reflexivity.
    + apply Z.eqb_neq in N1. unfold Win32.initialize.
      cbn [self Win32.fd Win32.fmd]. count_log.
      repeat split; auto.
Qed.

(** X7. Win32 [mmapio_open_rest], on every path, the mapping object
    being another handle than the file: when it returns [NULL] it has
    closed the file handle exactly once, freed the storage exactly when
    it had got it, and closed exactly once a mapping object it had
    created; when it returns a handle it has closed and freed nothing,
    and the handle holds the file handle and a mapping object. *)
Theorem win32_open_rest_releases_on_failure
  (sys : Win32.os) (fd : Z) (mt : mmapio_mode_tag) (sz off : Z) :
  (forall inherit protect high low,
      Win32.sys_CreateFileMappingA sys fd inherit protect high low <> fd) ->
  let r := run (Win32.mmapio_open_rest sys fd mt sz off) in
  match fst r with
  | None =>
      win32_closes fd (snd r) = 1%nat /\
      win32_frees (snd r) = (if Win32.sys_calloc sys then 1 else 0)%nat /\
      (forall inherit protect high low,
          In (Win32.CreateFileMapping fd inherit protect high low) (snd r) ->
          let fmd :=
            Win32.sys_CreateFileMappingA sys fd inherit protect high low in
          fmd = NULL \/ win32_closes fmd (snd r) = 1%nat)
  | Some m =>
      (forall h, win32_closes h (snd r) = 0%nat) /\
      win32_frees (snd r) = 0%nat /\
      Win32.fd (self m) = fd /\
      Win32.fmd (self m) <> NULL
  end.
Proof.
  exact (win32_open_rest_release_log sys fd mt sz off).
Qed.

Lemma win32_open_rest_releases_witness :
  win32_closes 3
    (snd (run (Win32.mmapio_open_rest Examples.windows 3
                 (mmapio_mode_parse "x") 100 0))) = 1%nat.
Proof.
  assert (D : forall inherit protect high low,
             Win32.sys_CreateFileMappingA Examples.windows 3
               inherit protect high low <> 3).
  { intros inherit protect high low. simpl.
    destruct (protect =? 0); unfold NULL; lia. }
  pose proof (win32_open_rest_releases_on_failure Examples.windows 3
                (mmapio_mode_parse "x") 100 0 D) as W.
  cbv zeta in W.
  change (fst (run (Win32.mmapio_open_rest Examples.windows 3
                      (mmapio_mode_parse "x") 100 0)))
    with (@None (mmapio_i Win32.mmapio_win32 Win32.event)) in W.
  exact (proj1 W).
Defined.

(** ** From open to close *)

(** The calls of a successful Unix [mmapio_open_rest]. *)
Lemma unix_open_rest_success_log (sys : Unix.os) fd mt sz off m log :
  run (Unix.mmapio_open_rest sys fd mt sz off) = (Some m, log) ->
  exists pre fullsize fullshift fulloff,
    Unix.sys_calloc sys = true /\
    run (Unix.assign_cloexec sys fd mt) = (Some false, pre) /\
    Unix.fix_to_page_sizes sys fd (Unix.fix_map_size sys fd mt sz off) off pre
      = (Some (fullsize, fullshift, fulloff), pre) /\
    let prot := Unix.mmapio_mode_prot_cvt (mode mt) in
    let flags := Unix.mmapio_mode_flag_cvt (privy mt) in
    let p := Unix.sys_mmap sys fullsize prot flags fd fulloff in
    p <> NULL /\
    m = Unix.initialize (Unix.mk_unix p fullsize fullshift fd) /\
    log = pre ++ [Unix.Mmap fullsize prot flags fd fulloff].
Proof.
  unfold run, Unix.mmapio_open_rest. intros H.
  destruct (Unix.sys_calloc sys); cbn [negb] in H;
    [|unfold bind, emit, return_NULL in H; discriminate H].
  unfold bind at 1 in H.
  destruct (Unix.assign_cloexec sys fd mt []) as [[[|]|] pre] eqn:G;
    try (unfold bind, emit, return_NULL in H; discriminate H).
  unfold bind at 1 in H.
  destruct (Unix.fix_to_page_sizes sys fd _ off pre)
    as [[[[a b] c]|] l2] eqn:F; [|discriminate H].
  destruct (unix_page_fix_ok _ _ _ _ _ _ _ _ _ F) as [-> _].
  apply unix_map_ok in H. cbv zeta in H. destruct H as (Hp & -> & ->).
  exists pre, a, b, c. cbv zeta. repeat split; assumption.
Qed.

(** The calls of a successful Win32 [mmapio_open_rest]. *)
Lemma win32_open_rest_success_log (sys : Win32.os) fd mt sz off m log :
  run (Win32.mmapio_open_rest sys fd mt sz off) = (Some m, log) ->
  exists size fullsize fullshift fulloff ext,
    Win32.fix_map_size fd mt (Win32.mmapio_file_size_e sys fd) sz off []
      = (Some size, []) /\
    Win32.fix_to_granularity sys fd size off []
      = (Some (fullsize, fullshift, fulloff, ext), []) /\
    let inherit := is_set (bequeath mt) in
    let fullextent :=
      if size_t (ext + fulloff) <? Win32.mmapio_file_size_e sys fd
      then size_t (ext + fulloff) else Win32.mmapio_file_size_e sys fd in
    let protect := Win32.mmapio_mode_prot_cvt (mode mt) in
    let high := Win32.high_dword fullextent in
    let low := Win32.low_dword fullextent in
    let fmd := Win32.sys_CreateFileMappingA sys fd inherit protect high low in
    let access := Win32.mmapio_mode_access_cvt mt in
    let p := Win32.sys_MapViewOfFile sys fmd access
               (Win32.high_dword fulloff) (Win32.low_dword fulloff) fullsize in
    fmd <> NULL /\ p <> NULL /\
    m = Win32.initialize (Win32.mk_win32 p fullsize fullshift fmd fd) /\
    log = [Win32.CreateFileMapping fd inherit protect high low;
           Win32.MapView fmd access (Win32.high_dword fulloff)
             (Win32.low_dword fulloff) fullsize].
Proof.
  unfold run. intros H.
  destruct (win32_open_rest_ok _ _ _ _ _ _ _ _ H)
    as (size & a & b & c & d & S & F & G).
  exists size, a, b, c, d. split; [exact S|]. split; [exact F|].
  rewrite win32_map_run in G. cbv zeta in *.
  destruct (_ =? NULL) eqn:N1 in G; [discriminate G|].
  destruct (_ =? NULL) eqn:N2 in G; [discriminate G|].
  apply Z.eqb_neq in N1, N2. inversion G. auto.
Qed.

(** X8. From open to close. A handle that [mmapio_open_rest] returned
    is the result of one mapping call of the open; [mmapio_close] on it
    unmaps that pointer (on Unix with the length that was mapped),
    closes the handles the open had (on Win32 the mapping object, then
    the file) and frees the storage, in this order and nothing else;
    [mmapio_release] makes no native call at all. *)
Theorem close_releases_what_open_acquired
  (usys : Unix.os) (wsys : Win32.os)
  (fd : Z) (mt : mmapio_mode_tag) (sz off : Z) :
  (forall m log,
     run (Unix.mmapio_open_rest usys fd mt sz off) = (Some m, log) ->
     (exists prot flags offset,
         In (Unix.Mmap (Unix.len (self m)) prot flags fd offset) log /\
         Unix.ptr (self m)
           = Unix.sys_mmap usys (Unix.len (self m)) prot flags fd offset) /\
     mmapio_close m log
       = (Some tt, log ++ [Unix.Munmap (Unix.ptr (self m)) (Unix.len (self m));
                           Unix.Close fd; Unix.Free]) /\
     unix_closes fd (snd (mmapio_close m log)) = 1%nat /\
     unix_frees (snd (mmapio_close m log)) = 1%nat /\
     forall p, mmapio_release m p log = (Some tt, log))
  /\
  (forall m log,
     run (Win32.mmapio_open_rest wsys fd mt sz off) = (Some m, log) ->
     (exists inherit protect high low access ohigh olow,
         In (Win32.CreateFileMapping fd inherit protect high low) log /\
         Win32.fmd (self m)
           = Win32.sys_CreateFileMappingA wsys fd inherit protect high low /\
         In (Win32.MapView (Win32.fmd (self m)) access ohigh olow
               (Win32.len (self m))) log /\
         Win32.ptr (self m)
           = Win32.sys_MapViewOfFile wsys (Win32.fmd (self m)) access
               ohigh olow (Win32.len (self m))) /\
     mmapio_close m log
       = (Some tt, log ++ [Win32.UnmapView (Win32.ptr (self m));
                           Win32.CloseHandle (Win32.fmd (self m));
                           Win32.CloseHandle fd; Win32.Free]) /\
     win32_frees (snd (mmapio_close m log)) = 1%nat /\
     forall p, mmapio_release m p log = (Some tt, log)).
Proof.
  split; intros m log H.
  - destruct (unix_open_rest_success_log _ _ _ _ _ _ _ H)
      as (pre & a & b & c & _ & G & _ & R).
    cbv zeta in R. destruct R as (_ & -> & ->).
    destruct (unix_cloexec_log _ _ _ _ _ _ G) as [Ep|[fl Ep]];
      cbn [app] in Ep; subst pre.
    all: unfold mmapio_close, mmapio_release, Unix.initialize.
    all: cbn [self mmi_dtor mmi_release Unix.ptr Unix.len Unix.fd].
    all: unfold Unix.mmapio_mmi_dtor, Unix.mmapio_mmi_release.
    all: mm_unfold; cbn [snd app].
    all: split; [do 3 eexists; split; [|reflexivity]; cbn; auto|].
    all: split; [reflexivity|].
    all: count_log; auto.
  - destruct (win32_open_rest_success_log _ _ _ _ _ _ _ H)
      as (size & a & b & c & d & _ & _ & R).
    cbv zeta in R. destruct R as (_ & _ & -> & ->).
    unfold mmapio_close, mmapio_release, Win32.initialize.
    cbn [self mmi_dtor mmi_release Win32.ptr Win32.len Win32.fd Win32.fmd].
    unfold Win32.mmapio_mmi_dtor, Win32.mmapio_mmi_release.
    mm_unfold; cbn [snd app].
    split.
    { do 7 eexists. split; [left; reflexivity|]. split; [reflexivity|].
      split; [right; left; reflexivity | reflexivity]. }
    split; [reflexivity|].
    count_log. auto.
Qed.

Lemma close_releases_witness :
  mmapio_close Examples.linux_handle
    [Unix.SetFd 3 1; Unix.Mmap 110 1 1 3 0]
    = (Some tt, [Unix.SetFd 3 1; Unix.Mmap 110 1 1 3 0] ++
                [Unix.Munmap 0x7f3a00000000 110; Unix.Close 3; Unix.Free]).
Proof.
  destruct (close_releases_what_open_acquired Examples.linux Examples.windows
              3 (mmapio_mode_parse "r") 100 10) as [U _].
  apply (U Examples.linux_handle). reflexivity.
Defined.

(** ** The window a handle exposes *)

Lemma aligned_offset off g : 0 < g -> (off - off mod g) mod g = 0.
Proof.
  intros G. pose proof (Z.div_mod off g ltac:(lia)) as D.
  replace (off - off mod g) with (off / g * g) by lia.
  apply Z.mod_mul. lia.
Qed.

(** X9. The shift is invisible, for a request whose offset fits an
    [off_t] and a handle around a mapping. For a handle of a successful
    [mmapio_open_rest], the one mapping call of the open is made with
    the mapped length of the handle and, on Win32 for every offset and
    on Unix for an offset of [OFF_MAX] at most, at the file offset
    [off - shift]. When the pointer and the mapped length of the handle
    are a range of the address space, [mmapio_acquire] is the pointer
    [shift] bytes into the mapping, which is then the byte of the file
    at the offset the caller asked for, and the window of
    [mmapio_length] bytes from there ends exactly where the mapping
    ends. Neither holds without its condition: a Unix offset above
    [OFF_MAX] is handed to [mmap] as a negative [off_t], and the handle
    of a failed [mmap] has no mapping to point into. *)
Theorem exposed_window_starts_at_requested_offset
  (usys : Unix.os) (wsys : Win32.os)
  (fd : Z) (mt : mmapio_mode_tag) (sz off : Z) :
  in_size_t sz -> in_size_t off ->
  (forall m log,
     run (Unix.mmapio_open_rest usys fd mt sz off) = (Some m, log) ->
     exists offset,
       Unix.mapping_calls log = [(Unix.len (self m), offset)] /\
       (off <= OFF_MAX -> offset + Unix.shift (self m) = off) /\
       (in_address_space (Unix.ptr (self m)) (Unix.len (self m)) ->
        mmapio_acquire m = Unix.ptr (self m) + Unix.shift (self m) /\
        mmapio_acquire m + mmapio_length m
          = Unix.ptr (self m) + Unix.len (self m)))
  /\
  (forall m log,
     run (Win32.mmapio_open_rest wsys fd mt sz off) = (Some m, log) ->
     exists offset,
       Win32.mapping_calls log = [(Win32.len (self m), offset)] /\
       offset + Win32.shift (self m) = off /\
       (in_address_space (Win32.ptr (self m)) (Win32.len (self m)) ->
        mmapio_acquire m = Win32.ptr (self m) + Win32.shift (self m) /\
        mmapio_acquire m + mmapio_length m
          = Win32.ptr (self m) + Win32.len (self m))).
Proof.
  intros Hsz Hoff. split.
  - intros m log H.
    destruct (unix_handle _ _ _ _ _ _ _ _ Hsz Hoff H)
      as (A & L & _ & Hs & Hl & Hmax & _).
    pose proof (unix_map_size_range usys fd mt sz off Hsz) as Rs.
    destruct (unix_open_rest_success_log _ _ _ _ _ _ _ H)
      as (pre & a & b & c & _ & G & F & R).
    cbv zeta in R. destruct R as (_ & Em & ->).
    destruct (unix_cloexec_calls _ _ _ _ _ G) as [Pc _].
    apply unix_page_fix_ok in F. destruct F as [_ F].
    exists c. rewrite unix_mapping_calls_app, Pc. subst m.
    unfold Unix.initialize in *.
    cbn [self Unix.ptr Unix.len Unix.shift mmi_acquire mmi_length] in *.
    split; [reflexivity|]. split.
    + intros Hfit.
      destruct F as [(P & -> & _ & _ & ->)|(P & -> & _ & ->)].
      * pose proof (mod_le_self off _ (proj1 Hoff) P) as B.
        rewrite size_t_id by (unfold in_size_t in *; lia).
        rewrite off_t_id by lia. lia.
      * rewrite off_t_id by (unfold in_size_t in *; lia). lia.
    + intros [Ha Hb]. unfold mmapio_acquire, mmapio_length.
      cbn [self mmi_acquire mmi_length].
      unfold Unix.mmapio_mmi_acquire, Unix.mmapio_mmi_length.
      cbn [Unix.ptr Unix.len Unix.shift].
      rewrite !size_t_id by (unfold in_size_t in *; lia). lia.
  - intros m log H.
    destruct (win32_handle _ _ _ _ _ _ _ _ Hsz Hoff H)
      as (sz' & _ & Rs & A & L & _ & Hs & Hl & Hmax & _).
    assert (W : in_address_space (Win32.ptr (self m)) (Win32.len (self m)) ->
                mmapio_acquire m = Win32.ptr (self m) + Win32.shift (self m) /\
                mmapio_acquire m + mmapio_length m
                  = Win32.ptr (self m) + Win32.len (self m)).
    { intros [Ha Hb]. unfold mmapio_acquire, mmapio_length.
      rewrite A, L.
      unfold Win32.mmapio_mmi_acquire, Win32.mmapio_mmi_length.
      rewrite !size_t_id by (unfold in_size_t in *; lia). lia. }
    clear A L Hs Hl Hmax Rs.
    destruct (win32_open_rest_success_log _ _ _ _ _ _ _ H)
      as (size & a & b & c & d & _ & F & R).
    cbv zeta in R. destruct R as (_ & _ & Em & ->).
    apply win32_granularity_ok in F. destruct F as [_ F].
    exists c. subst m. unfold Win32.initialize in *.
    cbn [self Win32.ptr Win32.len Win32.shift mmi_acquire mmi_length] in *.
    assert (Rc : in_size_t c /\ c + b = off).
    { destruct F as [(P & -> & _ & _ & ->)|(P & -> & _ & -> & _)].
      - pose proof (mod_le_self off _ (proj1 Hoff) P) as B.
        rewrite size_t_id by (unfold in_size_t in *; lia).
        unfold in_size_t in *. split; lia.
      - split; [assumption | lia]. }
    destruct Rc as [Rc Ec].
    split.
    { unfold Win32.mapping_calls. cbn [flat_map app].
      now rewrite (dword_halves _ Rc). }
    split; [exact Ec|]. exact W.
Qed.

Lemma exposed_window_witness :
  exists offset,
    Unix.mapping_calls [Unix.SetFd 3 1; Unix.Mmap 110 1 1 3 0]
      = [(Unix.len (self Examples.linux_handle), offset)] /\
    offset + Unix.shift (self Examples.linux_handle) = 10.
Proof.
  destruct (exposed_window_starts_at_requested_offset
              Examples.linux Examples.windows
              3 (mmapio_mode_parse "r") 100 10) as [U _].
  - unfold in_size_t, SIZE_MAX. lia.
  - unfold in_size_t, SIZE_MAX. lia.
  - destruct (U Examples.linux_handle
                [Unix.SetFd 3 1; Unix.Mmap 110 1 1 3 0])
      as (offset & C & E & _).
    + reflexivity.
    + exists offset. split; [assumption|].
      apply E. unfold OFF_MAX. lia.
Defined.

(** The mapping calls of [mmapio_open_rest], whatever its outcome: none,
    or one with the values of the block that fixes size and offset. *)
Lemma unix_open_rest_calls (sys : Unix.os) fd mt sz off :
  let log := snd (run (Unix.mmapio_open_rest sys fd mt sz off)) in
  Unix.mapping_calls log = [] \/
  exists pre fullsize fullshift fulloff,
    Unix.fix_to_page_sizes sys fd (Unix.fix_map_size sys fd mt sz off) off pre
      = (Some (fullsize, fullshift, fulloff), pre) /\
    Unix.mapping_calls log = [(fullsize, fulloff)].
Proof.
  cbv zeta. unfold run, Unix.mmapio_open_rest.
  destruct (Unix.sys_calloc sys); cbn [negb]; [|left; reflexivity].
  unfold bind.
  destruct (Unix.assign_cloexec sys fd mt []) as [[[|]|] pre] eqn:G.
  - destruct (unix_cloexec_calls _ _ _ _ _ G) as [Pc _].
    left. mm_unfold. cbn [snd]. now rewrite !unix_mapping_calls_app, Pc.
  - destruct (unix_cloexec_calls _ _ _ _ _ G) as [Pc _].
    destruct (Unix.fix_to_page_sizes sys fd _ off pre)
      as [[[[a b] c]|] l2] eqn:F.
    + destruct (unix_page_fix_ok _ _ _ _ _ _ _ _ _ F) as [-> _].
      right. exists pre, a, b, c. split; [exact F|].
      destruct (unix_map_calls sys fd mt a b c pre) as (Mc & _).
      cbv beta iota. now rewrite Mc, Pc.
    + left. cbn [snd]. unfold Unix.fix_to_page_sizes in F. mm_unfold.
      destruct (0 <? _) in F; [|discriminate F].
      destruct (_ <=? _) in F; [|discriminate F].
      inversion F. now rewrite !unix_mapping_calls_app, Pc.
  - destruct (unix_cloexec_calls _ _ _ _ _ G) as [Pc _].
    left. cbn [snd]. exact Pc.
Qed.

Lemma win32_open_rest_calls (sys : Win32.os) fd mt sz off :
  in_size_t off ->
  let log := snd (run (Win32.mmapio_open_rest sys fd mt sz off)) in
  forall call, In call (Win32.mapping_calls log) ->
  exists size fullsize fullshift fulloff ext,
    Win32.fix_to_granularity sys fd size off []
      = (Some (fullsize, fullshift, fulloff, ext), []) /\
    call = (fullsize, fulloff).
Proof.
  intros Hoff. cbv zeta. unfold run, Win32.mmapio_open_rest. cbv zeta.
  destruct (Win32.sys_calloc sys); cbn [negb]; [|intros call []].
  unfold bind.
  destruct (Win32.fix_map_size fd mt _ sz off []) as [[size|] l1] eqn:S.
  2: { unfold Win32.fix_map_size in S. mm_unfold.
       destruct (is_set (end_ mt));
         [destruct (_ <? off) in S | destruct (sz =? 0) in S];
         inversion S; subst; intros call []. }
  destruct (win32_map_size_ok _ _ _ _ _ _ _ _ S) as [-> _].
  destruct (Win32.fix_to_granularity sys fd size off [])
    as [[[[[a b] c] d]|] l2] eqn:F.
  2: { unfold Win32.fix_to_granularity in F. mm_unfold.
       destruct (0 <? _) in F; [|discriminate F].
       destruct (_ <=? _) in F; [|discriminate F].
       inversion F; subst. intros call []. }
  pose proof F as F'.
  apply win32_granularity_ok in F'. destruct F' as [-> F'].
  assert (Rc : in_size_t c).
  { destruct F' as [(_ & _ & _ & _ & ->)|(_ & _ & _ & -> & _)];
      [apply size_t_range | assumption]. }
  intros call I.
  destruct (win32_map_calls sys fd mt (Win32.mmapio_file_size_e sys fd)
              a b c d [] Rc) as (Mc & _).
  destruct (Mc call I) as [[]|E].
  exists size, a, b, c, d. split; assumption.
Qed.

(** The cast to [off_t] keeps the remainder by a divisor of 2^64. *)
Lemma off_t_mod_divisor x g :
  0 < g -> 2 ^ 64 mod g = 0 -> off_t x mod g = x mod g.
Proof.
  intros G D. unfold off_t.
  pose proof (Z.div_mod (x + 2 ^ 63) (2 ^ 64) ltac:(lia)) as E.
  apply Z.mod_divide in D; [|lia]. destruct D as [c D].
  remember ((x + 2 ^ 63) / 2 ^ 64) as q eqn:Q. clear Q.
  replace ((x + 2 ^ 63) mod 2 ^ 64 - 2 ^ 63) with (x - 2 ^ 64 * q) by lia.
  rewrite D. replace (x - c * g * q) with (x + (- q * c) * g) by ring.
  apply Z.mod_add. lia.
Qed.

(** X10. With a positive granularity, every mapping call of
    [mmapio_open_rest] is made at a file offset that is a multiple of
    the granularity: on Win32 whatever offset the caller asked for; on
    Unix, where the offset is cast to [off_t], whatever offset the
    caller asked for when the page size divides 2^64 (a power of two),
    and for an offset of [OFF_MAX] at most with any other page size. *)
Theorem mapping_offset_is_aligned
  (usys : Unix.os) (wsys : Win32.os)
  (fd : Z) (mt : mmapio_mode_tag) (sz off : Z) :
  in_size_t sz -> in_size_t off ->
  (0 < Unix.sys_page_size usys ->
   2 ^ 64 mod Unix.sys_page_size usys = 0 \/ off <= OFF_MAX ->
   forall bytes offset,
     In (bytes, offset)
        (Unix.mapping_calls
           (snd (run (Unix.mmapio_open_rest usys fd mt sz off)))) ->
     offset mod Unix.sys_page_size usys = 0)
  /\
  (0 < Win32.sys_granularity wsys ->
   forall bytes offset,
     In (bytes, offset)
        (Win32.mapping_calls
           (snd (run (Win32.mmapio_open_rest wsys fd mt sz off)))) ->
     offset mod Win32.sys_granularity wsys = 0).
Proof.
  intros Hsz Hoff. split.
  - intros P Hfit bytes offset I.
    pose proof (mod_le_self off _ (proj1 Hoff) P) as B.
    destruct (unix_open_rest_calls usys fd mt sz off)
      as [E|(pre & a & b & c & F & E)]; rewrite E in I; [destruct I|].
    destruct I as [I|[]]. inversion I; subst.
    apply unix_page_fix_ok in F.
    destruct F as [_ [(_ & -> & _ & _ & ->)|(N & _)]]; [|lia].
    rewrite size_t_id by (unfold in_size_t in *; lia).
    destruct Hfit as [D|Hfit].
    + rewrite off_t_mod_divisor by assumption. now apply aligned_offset.
    + rewrite off_t_id by lia. now apply aligned_offset.
  - intros P bytes offset I.
    pose proof (mod_le_self off _ (proj1 Hoff) P) as B.
    destruct (win32_open_rest_calls wsys fd mt sz off Hoff _ I)
      as (size & a & b & c & d & F & E).
    inversion E; subst.
    apply win32_granularity_ok in F.
    destruct F as [_ [(_ & -> & _ & _ & ->)|(N & _)]]; [|lia].
    rewrite size_t_id by (unfold in_size_t in *; lia).
    now apply aligned_offset.
Qed.

Lemma mapping_offset_is_aligned_witness :
  (-2 ^ 63 + 4096) mod 4096 = 0.
Proof.
  destruct (mapping_offset_is_aligned Examples.linux Examples.windows
              3 (mmapio_mode_parse "r") 100 (2 ^ 63 + 4106)) as [U _].
  - unfold in_size_t, SIZE_MAX. lia.
  - unfold in_size_t, SIZE_MAX. lia.
  - apply (U ltac:(simpl; lia) ltac:(left; reflexivity)
             110 (-2 ^ 63 + 4096)).
    vm_compute. left. reflexivity.
Defined.

(** ** Inheritance of the file by child processes *)

Lemma testbit_one i : 0 <= i -> Z.testbit 1 i = (i =? 0).
Proof.
  intros H. destruct (Z.eqb_spec i 0) as [->|N]; [reflexivity|].
  apply Z.bits_above_log2; simpl; lia.
Qed.

(** X11. Unix: a successful [mmapio_open_rest] has set the descriptor
    flags exactly once; in the flags it set, the close-on-exec bit is
    cleared when the tag asks for inheritance and set when it does not,
    and every other bit is the one [F_GETFD] had reported. *)
Theorem unix_close_on_exec_follows_bequeath
  (sys : Unix.os) (fd : Z) (mt : mmapio_mode_tag) (sz off : Z)
  (m : mmapio_i Unix.mmapio_unix Unix.event) (log : list Unix.event) :
  run (Unix.mmapio_open_rest sys fd mt sz off) = (Some m, log) ->
  exists flags,
    unix_setfd_calls log = [(fd, flags)] /\
    Z.testbit flags 0 = negb (is_set (bequeath mt)) /\
    forall i, 0 < i ->
      Z.testbit flags i = Z.testbit (Unix.sys_fcntl_getfd sys fd) i.
Proof.
  intros H.
  destruct (unix_open_rest_success_log _ _ _ _ _ _ _ H)
    as (pre & a & b & c & _ & G & _ & R).
  cbv zeta in R. destruct R as (_ & _ & ->).
  unfold run, Unix.assign_cloexec in G. mm_unfold.
  destruct (_ <? 0) in G; [discriminate G|].
  destruct (is_set (bequeath mt)); injection G as _ G; subst pre.
  - exists (Z.land (Unix.sys_fcntl_getfd sys fd) (Z.lnot Unix.FD_CLOEXEC)).
    split; [reflexivity|]. unfold Unix.FD_CLOEXEC. split.
    + rewrite Z.land_spec, Z.lnot_spec by lia.
      cbn. apply andb_false_r.
    + intros i Hi. rewrite Z.land_spec, Z.lnot_spec, testbit_one by lia.
      replace (i =? 0) with false by (symmetry; apply Z.eqb_neq; lia).
      apply andb_true_r.
  - exists (Z.lor (Unix.sys_fcntl_getfd sys fd) Unix.FD_CLOEXEC).
    split; [reflexivity|]. unfold Unix.FD_CLOEXEC. split.
    + rewrite Z.lor_spec. cbn. apply orb_true_r.
    + intros i Hi. rewrite Z.lor_spec, testbit_one by lia.
      replace (i =? 0) with false by (symmetry; apply Z.eqb_neq; lia).
      apply orb_false_r.
Qed.

Lemma unix_close_on_exec_witness :
  exists flags,
    unix_setfd_calls [Unix.SetFd 3 1; Unix.Mmap 110 1 1 3 0] = [(3, flags)] /\
    Z.testbit flags 0 = true.
Proof.
  destruct (unix_close_on_exec_follows_bequeath Examples.linux 3
              (mmapio_mode_parse "r") 100 10 Examples.linux_handle
              [Unix.SetFd 3 1; Unix.Mmap 110 1 1 3 0])
    as (flags & C & B & _).
  - reflexivity.
  - exists flags. split; assumption.
Defined.

Lemma win32_inherit_flags_app l l' :
  win32_inherit_flags (l ++ l')
    = win32_inherit_flags l ++ win32_inherit_flags l'.
Proof. unfold win32_inherit_flags. apply flat_map_app. Qed.

(** The log of Win32 [mmapio_open_rest], whatever its outcome: one of
    the three early rejections, or the log of the last block. *)
Lemma win32_open_rest_shape (sys : Win32.os) fd mt sz off :
  let r := run (Win32.mmapio_open_rest sys fd mt sz off) in
  snd r = [Win32.CloseHandle fd] \/
  snd r = [Win32.CloseHandle fd; Win32.Free] \/
  snd r = [Win32.CloseHandle fd; Win32.Free; Win32.SetErrno Win32.ERANGE] \/
  exists size fullsize fullshift fulloff ext,
    Win32.fix_to_granularity sys fd size off []
      = (Some (fullsize, fullshift, fulloff, ext), []) /\
    r = Win32.map_and_initialize sys fd mt (Win32.mmapio_file_size_e sys fd)
          fullsize fullshift fulloff ext [].
Proof.
  cbv zeta. unfold run, Win32.mmapio_open_rest. cbv zeta.
  destruct (Win32.sys_calloc sys); cbn [negb]; [|left; reflexivity].
  unfold bind.
  destruct (Win32.fix_map_size fd mt _ sz off []) as [[size|] l1] eqn:S.
  2: { unfold Win32.fix_map_size in S. mm_unfold.
       destruct (is_set (end_ mt));
         [destruct (_ <? off) in S | destruct (sz =? 0) in S];
         inversion S; subst; right; left; reflexivity. }
  destruct (win32_map_size_ok _ _ _ _ _ _ _ _ S) as [-> _].
  destruct (Win32.fix_to_granularity sys fd size off [])
    as [[[[[a b] c] d]|] l2] eqn:F.
  2: { unfold Win32.fix_to_granularity in F. mm_unfold.
       destruct (0 <? _) in F; [|discriminate F].
       destruct (_ <=? _) in F; [|discriminate F].
       inversion F; subst. right; right; left; reflexivity. }
  destruct (win32_granularity_ok _ _ _ _ _ _ _ _ _ _ F) as [-> _].
  right; right; right. exists size, a, b, c, d. split; [exact F | reflexivity].
Qed.

(** X12. Win32: every [CreateFile] and [CreateFileMapping] call of
    [mmapio_open] is made with [bInheritHandle] set exactly when the
    mode text asks for inheritance; no path hands out an inheritable
    handle otherwise. *)
Theorem win32_handles_inherit_only_on_request
  (sys : Win32.os) (nm : string) (mode_text : string) (sz off : Z) :
  Forall (fun inherit =>
            inherit = is_set (bequeath (mmapio_mode_parse mode_text)))
         (win32_inherit_flags
            (snd (run (Win32.mmapio_open sys nm mode_text sz off)))).
Proof.
  unfold run, Win32.mmapio_open. cbv zeta. mm_unfold.
  destruct (_ =? Win32.INVALID_HANDLE_VALUE).
  { cbn. repeat constructor. }
  match goal with
  | |- context [Win32.mmapio_open_rest sys ?h ?t sz off ?l] =>
      assert (E : Win32.mmapio_open_rest sys h t sz off l
                  = (fst (run (Win32.mmapio_open_rest sys h t sz off)),
                     l ++ snd (run (Win32.mmapio_open_rest sys h t sz off))));
      [|rewrite E; generalize (win32_open_rest_shape sys h t sz off)]
  end.
  { unfold run, Win32.mmapio_open_rest, Win32.fix_map_size,
      Win32.fix_to_granularity. cbv zeta.
    destruct (Win32.sys_calloc sys); cbn [negb]; [|reflexivity].
    mm_unfold.
    destruct (is_set (end_ _));
      [destruct (_ <? off) | destruct (sz =? 0)]; try reflexivity.
    all: destruct (0 <? _); [destruct (_ <=? _); [reflexivity|]|].
    all: rewrite !win32_map_run; cbv zeta.
    all: destruct (_ =? NULL); [reflexivity|].
    all: destruct (_ =? NULL); reflexivity. }
  cbv zeta. cbn [snd]. rewrite win32_inherit_flags_app.
  intros [S|[S|[S|(size & a & b & c & d & _ & S)]]]; rewrite S.
  1-3: cbn; repeat constructor.
  rewrite win32_map_run. cbv zeta.
  destruct (_ =? NULL); [cbn; repeat constructor|].
  destruct (_ =? NULL); cbn; repeat constructor.
Qed.

(** ** The size of the Win32 mapping object *)

(** X13. Win32: the maximum size [mmapio_open_rest] asks of
    [CreateFileMappingA] never exceeds the size of the file, so the
    open never makes the file grow. *)
Theorem win32_mapping_object_is_clamped
  (sys : Win32.os) (fd : Z) (mt : mmapio_mode_tag) (sz off : Z) :
  Forall (fun size => 0 <= size <= Win32.mmapio_file_size_e sys fd)
         (win32_mapping_objects
            (snd (run (Win32.mmapio_open_rest sys fd mt sz off)))).
Proof.
  assert (R : in_size_t (Win32.mmapio_file_size_e sys fd)).
  { unfold Win32.mmapio_file_size_e.
    destruct (Win32.sys_GetFileSizeEx sys fd);
      [apply size_t_range | unfold in_size_t, SIZE_MAX; lia]. }
  destruct (win32_open_rest_shape sys fd mt sz off)
    as [S|[S|[S|(size & a & b & c & d & _ & S)]]]; rewrite S.
  1-3: cbn; constructor.
  rewrite win32_map_run. cbv zeta.
  match goal with
  | |- context [Win32.high_dword ?x] =>
      assert (Rx : in_size_t x /\ x <= Win32.mmapio_file_size_e sys fd);
      [|set (fullextent := x) in *]
  end.
  { destruct (_ <? _) eqn:E.
    - apply Z.ltb_lt in E. split; [apply size_t_range | lia].
    - split; [exact R | lia]. }
  destruct Rx as [Rx Lx].
  assert (Hx : 0 <= Win32.high_dword fullextent * 2 ^ 32
                    + Win32.low_dword fullextent
               <= Win32.mmapio_file_size_e sys fd)
    by (rewrite (dword_halves _ Rx); unfold in_size_t in Rx; lia).
  destruct (_ =? NULL); [|destruct (_ =? NULL)];
    unfold win32_mapping_objects; cbn [snd flat_map app];
    repeat constructor; lia.
Qed.

(** X14. Win32: behind the range fix, when the padded size leaves room
    for one more granule, the size handed on for the mapping object is
    the padded size rounded up to the next multiple of the allocation
    granularity. *)
Theorem win32_extended_size_rounds_up
  (sys : Win32.os) (fd sz off : Z) (l l' : list Win32.event)
  (fullsize fullshift fulloff extended_size : Z) :
  in_size_t sz -> in_size_t off ->
  0 < Win32.sys_granularity sys ->
  Win32.fix_to_granularity sys fd sz off l
    = (Some (fullsize, fullshift, fulloff, extended_size), l') ->
  fullsize + Win32.sys_granularity sys <= SIZE_MAX ->
  extended_size mod Win32.sys_granularity sys = 0 /\
  fullsize <= extended_size < fullsize + Win32.sys_granularity sys.
Proof.
  intros Hsz Hoff P H Hroom.
  set (g := Win32.sys_granularity sys) in *.
  unfold Win32.fix_to_granularity in H. mm_unfold. fold g in H.
  apply Z.ltb_lt in P. rewrite P in H. apply Z.ltb_lt in P.
  destruct (_ <=? _) eqn:Gd in H; [discriminate H|].
  pose proof (mod_le_self off g (proj1 Hoff) P) as B.
  destruct (range_fix _ _ Hsz (proj1 B) Gd) as (W1 & W2 & _).
  rewrite W2 in H.
  pose proof (Z.mod_pos_bound (sz + off mod g) g P) as M.
  destruct (0 <? (sz + off mod g) mod g) eqn:Z0; inversion H; subst; clear H.
  - apply Z.ltb_lt in Z0.
    rewrite (size_t_id (g - _)) by (unfold in_size_t in *; lia).
    rewrite size_t_id by (unfold in_size_t in *; lia).
    split; [|lia].
    replace (sz + off mod g + (g - (sz + off mod g) mod g))
      with ((sz + off mod g - (sz + off mod g) mod g) + 1 * g) by lia.
    rewrite Z.mod_add by lia. now apply aligned_offset.
  - apply Z.ltb_ge in Z0. split; [lia | lia].
Qed.

Lemma win32_extended_size_witness :
  65536 mod 65536 = 0 /\ 110 <= 65536 < 110 + 65536.
Proof.
  apply (win32_extended_size_rounds_up Examples.windows 3 100 10 [] []
           110 10 0 65536).
  - unfold in_size_t, SIZE_MAX. lia.
  - unfold in_size_t, SIZE_MAX. lia.
  - simpl. lia.
  - reflexivity.
  - unfold SIZE_MAX. simpl. lia.
Defined.

(** ** What the UTF-8 decoder accepts *)

Lemma u8towc_loop_ascii_step fuel b rest n out :
  ascii_byte b -> 0 <= n < Win32.sz_max ->
  Win32.u8towc_loop (S fuel) (b :: rest) n out
    = Win32.u8towc_loop fuel rest (n + 1) (Win32.store out n b).
Proof.
  intros [B0 B1] [N0 N1]. cbn [Win32.u8towc_loop].
  replace (b =? 0) with false by (symmetry; apply Z.eqb_neq; lia).
  replace (n <? Win32.sz_max) with true by (symmetry; apply Z.ltb_lt; lia).
  replace (Win32.sz_max <=? n) with false by (symmetry; apply Z.leb_gt; lia).
  replace (b <? 0x80) with true by (symmetry; apply Z.ltb_lt; lia).
  reflexivity.
Qed.

Lemma u8towc_loop_high_byte fuel v rest n out :
  0x80 <= v -> 0 <= n < Win32.sz_max ->
  Win32.u8towc_loop (S fuel) (v :: rest) n out
    = Some (Win32.mk_shim Win32.MMAPIO_EILSEQ None out).
Proof.
  intros V [N0 N1]. cbn [Win32.u8towc_loop].
  replace (v =? 0) with false by (symmetry; apply Z.eqb_neq; lia).
  replace (n <? Win32.sz_max) with true by (symmetry; apply Z.ltb_lt; lia).
  replace (Win32.sz_max <=? n) with false by (symmetry; apply Z.leb_gt; lia).
  replace (v <? 0x80) with false by (symmetry; apply Z.ltb_ge; lia).
  cbn [negb orb].
  destruct (v <? 0xC0) eqn:E2; [reflexivity|].
  apply Z.ltb_ge in E2.
  rewrite !extension_codes_on_lead by assumption.
  destruct (v <? 0xE0); [reflexivity|].
  destruct (v <? 0xF0); [reflexivity|].
  destruct (v <? 0xF8); reflexivity.
Qed.

Lemma u8towc_loop_rejects fuel pre v rest n out :
  Forall ascii_byte pre -> 0x80 <= v -> 0 <= n ->
  n + Z.of_nat (List.length pre) < Win32.sz_max ->
  (List.length pre < fuel)%nat ->
  exists out',
    Win32.u8towc_loop fuel (pre ++ v :: rest) n out
      = Some (Win32.mk_shim Win32.MMAPIO_EILSEQ None out').
Proof.
  revert fuel n out. induction pre as [|b pre IH]; intros fuel n out A V N L F.
  - destruct fuel as [|fuel]; [simpl in F; lia|].
    exists out. cbn [app]. apply u8towc_loop_high_byte; [assumption|].
    simpl in L. lia.
  - destruct fuel as [|fuel]; [simpl in F; lia|].
    inversion A as [|? ? Ab Ap]; subst.
    cbn [app]. cbn [List.length] in L, F.
    rewrite u8towc_loop_ascii_step by (try assumption; lia).
    apply IH; try assumption; lia.
Qed.

(** X15. The decoder refuses every name that holds a byte of 0x80 or
    above behind ASCII bytes, well-formed UTF-8 or not:
    [mmapio_u8towc_shim] returns [MMAPIO_EILSEQ] without a length,
    [mmapio_u8towc] returns [NULL], and the Win32 [mmapio_u8open] gives
    up before any native call. *)
Theorem u8_name_beyond_ascii_is_refused
  (sys : Win32.os) (pre rest : list Z) (v : Z) (out : option (list Z))
  (mode_text : string) (sz off : Z) :
  Forall ascii_byte pre -> 0x80 <= v ->
  Z.of_nat (List.length pre) < Win32.sz_max ->
  (exists out',
      Win32.mmapio_u8towc_shim (pre ++ v :: rest) out
        = Some (Win32.mk_shim Win32.MMAPIO_EILSEQ None out')) /\
  Win32.mmapio_u8towc sys (pre ++ v :: rest) = None /\
  run (Win32.mmapio_u8open sys (pre ++ v :: rest) mode_text sz off)
    = (None, []).
Proof.
  intros A V L.
  assert (S : forall o, exists out',
             Win32.mmapio_u8towc_shim (pre ++ v :: rest) o
               = Some (Win32.mk_shim Win32.MMAPIO_EILSEQ None out')).
  { intros o. unfold Win32.mmapio_u8towc_shim.
    apply u8towc_loop_rejects; try assumption; try lia.
    rewrite length_app. simpl. lia. }
  assert (U : Win32.mmapio_u8towc sys (pre ++ v :: rest) = None).
  { unfold Win32.mmapio_u8towc. destruct (S None) as [o' ->].
    reflexivity. }
  split; [apply S|]. split; [exact U|].
  unfold run, Win32.mmapio_u8open. cbv zeta. now rewrite U.
Qed.

Lemma u8_name_beyond_ascii_witness :
  Win32.mmapio_u8towc Examples.windows ([0x61; 0x62] ++ 0xE2 :: [0x82; 0xAC])
    = None.
Proof.
  apply (u8_name_beyond_ascii_is_refused Examples.windows
           [0x61; 0x62] [0x82; 0xAC] 0xE2 None "r" 100 0).
  - repeat constructor; unfold ascii_byte; lia.
  - lia.
  - vm_compute. reflexivity.
Defined.

Lemma poke_at_end done v x tail :
  Win32.poke (done ++ x :: tail) (List.length done) v = done ++ v :: tail.
Proof.
  induction done as [|d done IH]; [reflexivity|].
  cbn [app List.length Win32.poke]. now rewrite IH.
Qed.

(** The first pass over ASCII bytes counts them. *)
Lemma u8towc_loop_ascii_count fuel p n :
  Forall ascii_byte p -> 0 <= n ->
  n + Z.of_nat (List.length p) <= Win32.sz_max ->
  (List.length p < fuel)%nat ->
  Win32.u8towc_loop fuel p n None
    = Some (Win32.mk_shim 0 (Some (n + Z.of_nat (List.length p))) None).
Proof.
  revert fuel n. induction p as [|b p IH]; intros fuel n A N L F.
  - destruct fuel as [|fuel]; [simpl in F; lia|].
    cbn. now rewrite Z.add_0_r.
  - destruct fuel as [|fuel]; [simpl in F; lia|].
    inversion A as [|? ? Ab Ap]; subst. cbn [List.length] in L, F.
    rewrite u8towc_loop_ascii_step by (try assumption; lia).
    cbn [Win32.store option_map]. rewrite IH by (try assumption; lia).
    cbn [List.length]. do 3 f_equal. lia.
Qed.

(** The second pass over ASCII bytes writes them one behind the other. *)
Lemma u8towc_loop_ascii_fill fuel p done k :
  Forall ascii_byte p ->
  Z.of_nat (List.length done) + Z.of_nat (List.length p) <= Win32.sz_max ->
  (List.length p < fuel)%nat -> (List.length p <= k)%nat ->
  Win32.u8towc_loop fuel p (Z.of_nat (List.length done))
    (Some (done ++ repeat 0 k))
    = Some (Win32.mk_shim 0
              (Some (Z.of_nat (List.length done) + Z.of_nat (List.length p)))
              (Some (done ++ p ++ repeat 0 (k - List.length p)))).
Proof.
  revert fuel done k.
  induction p as [|b p IH]; intros fuel done k A L F K.
  - destruct fuel as [|fuel]; [simpl in F; lia|].
    cbn. now rewrite Z.add_0_r, Nat.sub_0_r.
  - destruct fuel as [|fuel]; [simpl in F; lia|].
    inversion A as [|? ? Ab Ap]; subst. cbn [List.length] in L, F, K.
    rewrite u8towc_loop_ascii_step by (try assumption; lia).
    destruct k as [|k]; [lia|].
    cbn [Win32.store option_map repeat]. rewrite Nat2Z.id, poke_at_end.
    replace (done ++ b :: repeat 0 k) with ((done ++ [b]) ++ repeat 0 k)
      by (now rewrite <- app_assoc).
    replace (Z.of_nat (List.length done) + 1)
      with (Z.of_nat (List.length (done ++ [b])))
      by (rewrite length_app; simpl; lia).
    rewrite IH; try assumption; try lia.
    + rewrite length_app. cbn [List.length Nat.sub].
      rewrite <- !app_assoc. cbn [app]. do 3 f_equal. lia.
    + rewrite length_app. simpl. lia.
Qed.

(** X16. A name of ASCII bytes is decoded to itself: the first pass of
    [mmapio_u8towc] counts its bytes, the second writes one code unit
    for each into the zeroed buffer, and the result is the name with
    its terminator; without storage for the buffer the result is
    [NULL]. *)
Theorem u8_ascii_name_is_decoded (sys : Win32.os) (nm : list Z) :
  Forall ascii_byte nm ->
  Z.of_nat (List.length nm) <= Win32.sz_max ->
  Win32.mmapio_u8towc_shim nm None
    = Some (Win32.mk_shim 0 (Some (Z.of_nat (List.length nm))) None) /\
  Win32.mmapio_u8towc sys nm
    = if Win32.sys_calloc_name sys (Z.of_nat (List.length nm) + 1)
      then Some (nm ++ [0]) else None.
Proof.
  intros A L.
  assert (P1 : Win32.mmapio_u8towc_shim nm None
               = Some (Win32.mk_shim 0 (Some (Z.of_nat (List.length nm))) None)).
  { unfold Win32.mmapio_u8towc_shim.
    rewrite u8towc_loop_ascii_count by (try assumption; lia).
    reflexivity. }
  split; [exact P1|].
  unfold Win32.mmapio_u8towc. rewrite P1.
  cbn [Win32.shim_errno Win32.shim_outlen Z.eqb negb].
  assert (Lmax : Win32.sz_max < SIZE_MAX) by (vm_compute; reflexivity).
  rewrite size_t_id by (unfold in_size_t; lia).
  destruct (Win32.sys_calloc_name sys _); [|reflexivity].
  replace (Z.to_nat (Z.of_nat (List.length nm) + 1))
    with (S (List.length nm)) by lia.
  unfold Win32.mmapio_u8towc_shim.
  pose proof (u8towc_loop_ascii_fill (S (List.length nm)) nm []
                (S (List.length nm)) A) as P2.
  cbn [List.length app Z.of_nat] in P2.
  rewrite P2 by lia.
  cbn [Win32.shim_outlen Win32.shim_out Win32.store option_map].
  replace (S (List.length nm) - List.length nm)%nat with 1%nat by lia.
  cbn [repeat]. rewrite Z.add_0_l, Nat2Z.id.
  now rewrite poke_at_end.
Qed.

Lemma u8_ascii_name_witness :
  Win32.mmapio_u8towc Examples.windows [0x61; 0x2E; 0x62]
    = Some ([0x61; 0x2E; 0x62] ++ [0]).
Proof.
  apply (u8_ascii_name_is_decoded Examples.windows [0x61; 0x2E; 0x62]).
  - repeat constructor; unfold ascii_byte; lia.
  - vm_compute. discriminate.
Defined.

(** ** The dump program *)

Lemma hex_digits_length fuel k n :
  (1 <= k <= fuel)%nat -> 0 <= n < 16 ^ Z.of_nat k ->
  (1 <= List.length (Dump.hex_digits fuel n) <= k)%nat.
Proof.
  revert k n. induction fuel as [|fuel IH]; intros k n K N; [lia|].
  cbn [Dump.hex_digits]. destruct (n <? 16) eqn:E; [simpl; lia|].
  apply Z.ltb_ge in E. rewrite length_app. cbn [List.length].
  destruct k as [|[|k]]; [lia | simpl in N; lia |].
  assert (N' : 0 <= n / 16 < 16 ^ Z.of_nat (S k)).
  { split; [apply Z.div_pos; lia|].
    apply Z.div_lt_upper_bound; [lia|].
    replace (16 * 16 ^ Z.of_nat (S k)) with (16 ^ Z.of_nat (S (S k)));
      [lia|].
    rewrite (Nat2Z.inj_succ (S k)), Z.pow_succ_r by lia. reflexivity. }
  pose proof (IH (S k) (n / 16) ltac:(lia) N'). lia.
Qed.

Lemma fmt_4lx_length n :
  0 <= n < 65536 -> List.length (Dump.fmt_4lx n) = 4%nat.
Proof.
  intros N. unfold Dump.fmt_4lx. cbv zeta.
  pose proof (hex_digits_length 16 4 n ltac:(lia) ltac:(simpl; lia)).
  rewrite length_app, repeat_length. lia.
Qed.

Lemma byte_at_range mem bytes k : 0 <= Dump.byte_at mem bytes k < 256.
Proof.
  unfold Dump.byte_at.
  pose proof (nat_ascii_bounded (mem (bytes + k))). lia.
Qed.

Lemma fmt_02x_length n :
  0 <= n < 256 -> List.length (Dump.fmt_02x n) = 2%nat.
Proof.
  intros N. unfold Dump.fmt_02x. cbv zeta.
  pose proof (hex_digits_length 8 2 n ltac:(lia) ltac:(simpl; lia)).
  rewrite length_app, repeat_length. lia.
Qed.

Lemma hex_cells_length mem bytes len i :
  List.length (Dump.hex_cells mem bytes len i) = 36%nat.
Proof.
  unfold Dump.hex_cells. rewrite length_flat_map.
  rewrite (map_ext _ (fun j : Z => if (j mod 4 =? 0)%Z then 3%nat else 2%nat)).
  - reflexivity.
  - intros j. rewrite length_app.
    assert (E : List.length
                  (if j <? size_t (len - i)
                   then Dump.fmt_02x (Dump.byte_at mem bytes (i + j))
                   else [" "%char; " "%char]) = 2%nat).
    { destruct (j <? _); [|reflexivity].
      apply fmt_02x_length, byte_at_range. }
    rewrite E. destruct (j mod 4 =? 0); reflexivity.
Qed.

Lemma char_cells_length mem bytes len i :
  List.length (Dump.char_cells mem bytes len i) = 16%nat.
Proof.
  unfold Dump.char_cells. rewrite length_flat_map.
  rewrite (map_ext _ (fun _ : Z => 1%nat)).
  - reflexivity.
  - intros j. destruct (j <? _); reflexivity.
Qed.

Lemma row_length mem bytes len i :
  0 <= i < 65536 ->
  List.length (Dump.row mem bytes len i)
    = if i =? 0 then 60%nat else 61%nat.
Proof.
  intros I. unfold Dump.row.
  rewrite !length_app, fmt_4lx_length, hex_cells_length, char_cells_length
    by assumption.
  destruct (i =? 0); reflexivity.
Qed.

(** The rounds of the loop from a row [i] on: one for every 16 bytes
    that are left, the last one for what remains. *)
Lemma rows_count mem bytes len fuel i :
  0 <= i -> len <= 65536 -> len <= i + 16 * Z.of_nat fuel ->
  Z.of_nat (List.length (Dump.rows mem bytes len fuel i))
    = if i <? len then (len - i + 15) / 16 else 0.
Proof.
  revert i. induction fuel as [|fuel IH]; intros i I L F.
  - cbn [Dump.rows List.length].
    destruct (i <? len) eqn:E; [apply Z.ltb_lt in E; lia | reflexivity].
  - cbn [Dump.rows]. destruct (i <? len) eqn:E; [|reflexivity].
    apply Z.ltb_lt in E. cbn [List.length].
    rewrite size_t_id by (unfold in_size_t, SIZE_MAX; lia).
    rewrite Nat2Z.inj_succ, IH by lia.
    replace (len - i + 15) with ((len - i - 1) + 1 * 16) by lia.
    rewrite Z.div_add by lia.
    destruct (i + 16 <? len) eqn:E2.
    + apply Z.ltb_lt in E2. replace (len - (i + 16) + 15) with (len - i - 1)
        by lia. lia.
    + apply Z.ltb_ge in E2. rewrite Z.div_small by lia. lia.
Qed.

Lemma rows_width mem bytes len fuel i :
  0 <= i -> len <= 65536 ->
  Forall (fun r => List.length r = 61%nat \/
                   (i = 0 /\ List.length r = 60%nat))
         (Dump.rows mem bytes len fuel i).
Proof.
  revert i. induction fuel as [|fuel IH]; intros i I L; [constructor|].
  cbn [Dump.rows]. destruct (i <? len) eqn:E; [|constructor].
  apply Z.ltb_lt in E. constructor.
  - rewrite row_length by lia.
    destruct (Z.eqb_spec i 0); [right; now split | now left].
  - rewrite size_t_id by (unfold in_size_t, SIZE_MAX; lia).
    eapply Forall_impl; [|apply IH; lia].
    intros r [R|[Z0 _]]; [now left | lia].
Qed.

(** X17. The dump of up to 65536 bytes lines up: the loop prints one
    row for every 16 bytes, the last one for what remains, and every
    row has the same 60 characters behind its line break, however many
    bytes it shows. *)
Theorem dump_rows_line_up (mem : Z -> ascii) (bytes len : Z) :
  0 <= len <= 65536 ->
  let printed := Dump.rows mem bytes len (Z.to_nat len) 0 in
  Z.of_nat (List.length printed) = (len + 15) / 16 /\
  (forall i, 0 <= i < 65536 ->
     List.length (Dump.row mem bytes len i)
       = if i =? 0 then 60%nat else 61%nat) /\
  Forall (fun r => List.length r = 61%nat \/ List.length r = 60%nat) printed.
Proof.
  intros L printed. split; [|split].
  - unfold printed. rewrite rows_count by lia.
    destruct (0 <? len) eqn:E.
    + now rewrite Z.sub_0_r.
    + apply Z.ltb_ge in E. replace len with 0 by lia. reflexivity.
  - intros i I. now apply row_length.
  - eapply Forall_impl; [|apply rows_width; lia].
    intros r [R|[_ R]]; auto.
Qed.

Lemma dump_rows_line_up_witness :
  Z.of_nat (List.length
              (Dump.rows (fun _ => "a"%char) 4096 40 (Z.to_nat 40) 0))
    = (40 + 15) / 16.
Proof.
  apply (dump_rows_line_up (fun _ => "a"%char) 4096 40). lia.
Defined.

(** X18. A run of the dump program that returns leaves no handle open;
    a run that is killed leaves one. With fewer than five arguments it
    makes no native call and fails; when [mmapio_open] returns [NULL] it
    prints nothing to the standard output and fails with the calls of
    the open alone. With a handle, when [mmapio_acquire] is [NULL] or
    every byte of the window (its first [UINT_MAX - 32] bytes at most)
    can be read, it succeeds, having ended with the unmap, the close of
    the descriptor and the release of the storage, each exactly once;
    when a byte of the window cannot be read, as in a mapping without
    access or behind the handle of a failed [mmap], the run is killed
    in the loop with the calls of the open alone, the descriptor not
    closed. The third argument is the size and the fourth the offset of
    the open. *)
Theorem dump_main_closes_or_is_killed
  (sys : Unix.os) (strtoul : string -> Z) (mem : Dump.memory)
  (argv : list string) :
  let r := Dump.main sys strtoul mem argv in
  let opened :=
    run (Unix.mmapio_open sys (nth 1 argv ""%string) (nth 2 argv ""%string)
           (size_t (strtoul (nth 3 argv ""%string)))
           (size_t (strtoul (nth 4 argv ""%string)))) in
  ((List.length argv < 5)%nat ->
   exists o, r = Dump.Exited o /\
     Dump.status o = Dump.EXIT_FAILURE /\ Dump.stdout o = [] /\
     Dump.calls o = []) /\
  ((5 <= List.length argv)%nat ->
   match fst opened with
   | None =>
       exists o, r = Dump.Exited o /\
         Dump.status o = Dump.EXIT_FAILURE /\ Dump.stdout o = [] /\
         Dump.calls o = snd opened
   | Some mi =>
       let bytes := mmapio_acquire mi in
       let len := Z.min (mmapio_length mi) (Dump.UINT_MAX - 32) in
       if (bytes =? NULL) || Dump.readable mem bytes len then
         exists o, r = Dump.Exited o /\
           Dump.status o = Dump.EXIT_SUCCESS /\
           Dump.calls o
             = snd opened ++
               [Unix.Munmap (Unix.ptr (self mi)) (Unix.len (self mi));
                Unix.Close (Unix.fd (self mi)); Unix.Free] /\
           unix_closes (Unix.fd (self mi)) (Dump.calls o) = 1%nat /\
           unix_frees (Dump.calls o) = 1%nat
       else
         r = Dump.Killed (snd opened) /\
         unix_closes (Unix.fd (self mi)) (snd opened) = 0%nat
   end).
Proof.
  cbv zeta. unfold Dump.main. split.
  - intros A.
    replace (Z.of_nat (List.length argv) <? 5) with true
      by (symmetry; apply Z.ltb_lt; lia).
    eexists. split; [reflexivity|]. repeat split.
  - intros A.
    replace (Z.of_nat (List.length argv) <? 5) with false
      by (symmetry; apply Z.ltb_ge; lia).
    cbv zeta.
    destruct (run (Unix.mmapio_open sys _ _ _ _)) as [[mi|] log] eqn:O;
      cbn [fst snd];
      [|eexists; split; [reflexivity|]; repeat split].
    assert (R : exists fd, exists tail,
               log = Unix.Open (nth 1 argv ""%string)
                       (Unix.mmapio_mode_rw_cvt
                          (mode (mmapio_mode_parse (nth 2 argv ""%string))))
                     :: tail /\
               run (Unix.mmapio_open_rest sys fd
                      (mmapio_mode_parse (nth 2 argv ""%string))
                      (size_t (strtoul (nth 3 argv ""%string)))
                      (size_t (strtoul (nth 4 argv ""%string))))
                 = (Some mi, tail)).
    { unfold run, Unix.mmapio_open in O. mm_unfold. cbv zeta in O.
      destruct (_ =? -1) in O; [discriminate O|].
      match type of O with
      | Unix.mmapio_open_rest sys ?fd _ _ _ _ = _ => exists fd
      end.
      unfold Unix.mmapio_open_rest, Unix.assign_cloexec,
        Unix.fix_to_page_sizes, Unix.map_and_initialize in *.
      mm_unfold.
      destruct (Unix.sys_calloc sys); cbn [negb] in *; [|discriminate O].
      repeat match type of O with
             | context [if ?b then _ else _] => destruct b
             end; try discriminate O;
        inversion O; subst; eexists; split; reflexivity. }
    destruct R as (fd & tail & -> & R).
    destruct (unix_open_rest_success_log _ _ _ _ _ _ _ R)
      as (pre & a & b & c & _ & G & _ & S).
    cbv zeta in S. destruct S as (_ & -> & ->).
    assert (Lm : forall len,
               (if Dump.UINT_MAX - 32 <=? len then Dump.UINT_MAX - 32
                else len) = Z.min len (Dump.UINT_MAX - 32)).
    { intros len. destruct (Z.leb_spec (Dump.UINT_MAX - 32) len); lia. }
    destruct (unix_cloexec_log _ _ _ _ _ _ G) as [Ep|[fl Ep]];
      cbn [app] in Ep; subst pre.
    all: unfold Dump.output_the_data, mmapio_acquire, mmapio_length,
           mmapio_release, mmapio_close, Unix.initialize.
    all: cbn [self mmi_dtor mmi_release mmi_acquire mmi_length
                Unix.ptr Unix.len Unix.fd Unix.shift].
    all: unfold Unix.mmapio_mmi_dtor, Unix.mmapio_mmi_release.
    all: cbv zeta; rewrite Lm.
    all: destruct (_ =? NULL); cbn [negb orb];
           [|destruct (Dump.readable mem _ _)].
    all: try (eexists; split; [reflexivity|]).
    all: mm_unfold; cbn [snd app Dump.status Dump.calls].
    all: count_log; repeat split.
Qed.

Lemma dump_main_closes_or_is_killed_witness :
  Dump.main Examples.linux (fun _ => 16) (fun _ => None)
    ["dump"; "data.bin"; "x"; "16"; "16"]%string
  = Dump.Killed [Unix.Open "data.bin" 0; Unix.SetFd 3 1;
                 Unix.Mmap 32 0 1 3 0].
Proof.
  pose proof (dump_main_closes_or_is_killed Examples.linux (fun _ => 16)
                (fun _ => None)
                ["dump"; "data.bin"; "x"; "16"; "16"]%string) as W.
  cbv zeta in W. destruct W as [_ W].
  assert (L : (5 <= List.length ["dump"; "data.bin"; "x"; "16"; "16"]%string)%nat)
    by (simpl; lia).
  specialize (W L).
  change (run (Unix.mmapio_open Examples.linux
                 (nth 1 ["dump"; "data.bin"; "x"; "16"; "16"]%string
                    ""%string)
                 (nth 2 ["dump"; "data.bin"; "x"; "16"; "16"]%string
                    ""%string)
                 (size_t ((fun _ => 16)
                            (nth 3 ["dump"; "data.bin"; "x"; "16"; "16"]%string
                               ""%string)))
                 (size_t ((fun _ => 16)
                            (nth 4 ["dump"; "data.bin"; "x"; "16"; "16"]%string
                               ""%string)))))
    with (Some (Unix.initialize (Unix.mk_unix 0x7f3a00000000 32 16 3)),
          [Unix.Open "data.bin" 0; Unix.SetFd 3 1; Unix.Mmap 32 0 1 3 0])
    in W.
  exact (proj1 W).
Defined.

(** ** The open functions *)

(** The calls made before [mmapio_open_rest] stay in front of its own. *)
Lemma win32_open_rest_frame
  (sys : Win32.os) (fd : Z) (mt : mmapio_mode_tag) (sz off : Z)
  (l : list Win32.event) :
  Win32.mmapio_open_rest sys fd mt sz off l =
  (fst (run (Win32.mmapio_open_rest sys fd mt sz off)),
   l ++ snd (run (Win32.mmapio_open_rest sys fd mt sz off))).
Proof.
  unfold run, Win32.mmapio_open_rest, Win32.fix_map_size,
    Win32.fix_to_granularity, Win32.map_and_initialize.
  cbv zeta. mm_unfold.
  repeat match goal with
         | |- context [if ?b then _ else _] => destruct b; cbn [fst snd]
         end;
    cbn [app fst snd]; rewrite <- ?app_assoc, ?app_nil_r; reflexivity.
Qed.

(** The same on Unix. *)
Lemma unix_open_rest_frame
  (sys : Unix.os) (fd : Z) (mt : mmapio_mode_tag) (sz off : Z)
  (l : list Unix.event) :
  Unix.mmapio_open_rest sys fd mt sz off l =
  (fst (run (Unix.mmapio_open_rest sys fd mt sz off)),
   l ++ snd (run (Unix.mmapio_open_rest sys fd mt sz off))).
Proof.
  unfold run, Unix.mmapio_open_rest, Unix.assign_cloexec,
    Unix.fix_to_page_sizes, Unix.map_and_initialize.
  cbv zeta. mm_unfold.
  repeat match goal with
         | |- context [if ?b then _ else _] => destruct b; cbn [fst snd]
         end;
    cbn [app fst snd]; rewrite <- ?app_assoc, ?app_nil_r; reflexivity.
Qed.

(** What follows the native open in the three Unix open functions,
    behind the calls [l] made until then. *)
Lemma unix_after_open (sys : Unix.os) fd mt sz off l :
  let r :=
    (if fd =? -1 then return_NULL
     else Unix.mmapio_open_rest sys fd mt sz off) l in
  (exists tail, snd r = l ++ tail) /\
  match fst r with
  | None =>
      if fd =? -1 then snd r = l
      else unix_closes fd (snd r) = S (unix_closes fd l)
  | Some m =>
      fd <> -1 /\ Unix.fd (self m) = fd /\
      unix_closes fd (snd r) = unix_closes fd l
  end.
Proof.
  cbv zeta. destruct (_ =? -1) eqn:E.
  - split; [exists []; now rewrite app_nil_r | reflexivity].
  - apply Z.eqb_neq in E. split.
    { rewrite unix_open_rest_frame. eexists. reflexivity. }
    pose proof (unix_open_rest_release_log sys fd mt sz off l) as R.
    cbv zeta in R.
    destruct (fst (Unix.mmapio_open_rest sys _ mt sz off _)).
    + destruct R as (C & _ & F). auto.
    + destruct R as [C _]. exact C.
Qed.

(** X19. Unix, the three open functions. The log of a call begins with
    the [open], in [mmapio_wopen] followed by the free of the converted
    name. A call that returns [NULL] has either not got a descriptor
    from [open], and then its log ends there, or has closed the
    descriptor it got exactly once; a call that returns a handle has
    not closed the descriptor, which the handle holds. When the name
    cannot be converted, [mmapio_wopen] returns [NULL] with an empty
    log: it opens nothing, and its [free] of a null pointer releases
    nothing. *)
Theorem unix_open_keeps_no_descriptor
  (sys : Unix.os) (mode_text : string) (sz off : Z) :
  let flags := Unix.mmapio_mode_rw_cvt (mode (mmapio_mode_parse mode_text)) in
  let after (nm : string) (name_freed : list Unix.event)
        (r : option (mmapio_i Unix.mmapio_unix Unix.event)
             * list Unix.event) :=
    let fd := Unix.sys_open sys nm flags in
    (exists tail, snd r = Unix.Open nm flags :: name_freed ++ tail) /\
    match fst r with
    | None =>
        if fd =? -1 then snd r = Unix.Open nm flags :: name_freed
        else unix_closes fd (snd r) = 1%nat
    | Some m =>
        fd <> -1 /\ Unix.fd (self m) = fd /\ unix_closes fd (snd r) = 0%nat
    end in
  (forall nm,
     after nm [] (run (Unix.mmapio_open sys nm mode_text sz off))) /\
  (forall nm,
     after nm [] (run (Unix.mmapio_u8open sys nm mode_text sz off))) /\
  (forall wide,
     match Unix.mmapio_wctomb sys wide with
     | None =>
         run (Unix.mmapio_wopen sys wide mode_text sz off) = (None, [])
     | Some nm =>
         after nm [Unix.Free]
           (run (Unix.mmapio_wopen sys wide mode_text sz off))
     end).
Proof.
  cbv zeta.
  split; [|split].
  - intros nm.
    exact (unix_after_open sys _ (mmapio_mode_parse mode_text) sz off
             [Unix.Open nm _]).
  - intros nm.
    exact (unix_after_open sys _ (mmapio_mode_parse mode_text) sz off
             [Unix.Open nm _]).
  - intros wide. unfold Unix.mmapio_wopen. cbv zeta.
    destruct (Unix.mmapio_wctomb sys wide) as [nm|]; [|reflexivity].
    exact (unix_after_open sys _ (mmapio_mode_parse mode_text) sz off
             [Unix.Open nm _; Unix.Free]).
Qed.

(** What follows the native open in the three Win32 open functions,
    behind the calls [l] made until then. *)
Lemma win32_after_open (sys : Win32.os) fd mt sz off l :
  (forall i protect high low,
      Win32.sys_CreateFileMappingA sys fd i protect high low <> fd) ->
  let r :=
    (if fd =? Win32.INVALID_HANDLE_VALUE then return_NULL
     else Win32.mmapio_open_rest sys fd mt sz off) l in
  (exists tail, snd r = l ++ tail) /\
  match fst r with
  | None =>
      if fd =? Win32.INVALID_HANDLE_VALUE then snd r = l
      else win32_closes fd (snd r) = S (win32_closes fd l)
  | Some m =>
      fd <> Win32.INVALID_HANDLE_VALUE /\ Win32.fd (self m) = fd /\
      forall h, win32_closes h (snd r) = win32_closes h l
  end.
Proof.
  intros Hd. cbv zeta. destruct (_ =? Win32.INVALID_HANDLE_VALUE) eqn:E.
  - split; [exists []; now rewrite app_nil_r | reflexivity].
  - apply Z.eqb_neq in E.
    pose proof (win32_open_rest_release_log sys fd mt sz off Hd) as R.
    cbv zeta in R.
    rewrite win32_open_rest_frame. cbn [fst snd].
    split; [eexists; reflexivity|].
    destruct (fst (run (Win32.mmapio_open_rest sys fd mt sz off))).
    + destruct R as (C & _ & F & _).
      split; [exact E|]. split; [exact F|].
      intros h. rewrite win32_closes_app, C. lia.
    + destruct R as [C _]. rewrite win32_closes_app, C. lia.
Qed.

(** X20. Win32, the three open functions, the mapping object being
    another handle than the file. The log of a call begins with the
    [CreateFile], in [mmapio_u8open] followed by the free of the
    decoded name. A call that returns [NULL] has either not got a file
    handle, and then its log ends there, or has closed the file handle
    it got exactly once; a call that returns a handle has closed
    nothing, and the handle holds the file handle. When the name cannot
    be decoded, [mmapio_u8open] returns [NULL] with an empty log. *)
Theorem win32_open_keeps_no_handle
  (sys : Win32.os) (mode_text : string) (sz off : Z) :
  let mt := mmapio_mode_parse mode_text in
  let access := Win32.mmapio_mode_rw_cvt (mode mt) in
  let inherit := is_set (bequeath mt) in
  let after (fd : Z) (name_freed : list Win32.event)
        (r : option (mmapio_i Win32.mmapio_win32 Win32.event)
             * list Win32.event) :=
    (forall i protect high low,
        Win32.sys_CreateFileMappingA sys fd i protect high low <> fd) ->
    (exists tail,
        snd r = Win32.CreateFile access inherit :: name_freed ++ tail) /\
    match fst r with
    | None =>
        if fd =? Win32.INVALID_HANDLE_VALUE
        then snd r = Win32.CreateFile access inherit :: name_freed
        else win32_closes fd (snd r) = 1%nat
    | Some m =>
        fd <> Win32.INVALID_HANDLE_VALUE /\ Win32.fd (self m) = fd /\
        forall h, win32_closes h (snd r) = 0%nat
    end in
  (forall nm,
     after (Win32.sys_CreateFileA sys nm access inherit) []
       (run (Win32.mmapio_open sys nm mode_text sz off))) /\
  (forall nm,
     match Win32.mmapio_u8towc sys nm with
     | None =>
         run (Win32.mmapio_u8open sys nm mode_text sz off) = (None, [])
     | Some wide =>
         after (Win32.sys_CreateFileW sys wide access inherit) [Win32.Free]
           (run (Win32.mmapio_u8open sys nm mode_text sz off))
     end) /\
  (forall wide,
     after (Win32.sys_CreateFileW sys wide access inherit) []
       (run (Win32.mmapio_wopen sys wide mode_text sz off))).
Proof.
  cbv zeta.
  split; [|split].
  - intros nm Hd.
    exact (win32_after_open sys _ (mmapio_mode_parse mode_text) sz off
             [Win32.CreateFile _ _] Hd).
  - intros nm. unfold Win32.mmapio_u8open. cbv zeta.
    destruct (Win32.mmapio_u8towc sys nm) as [wide|]; [|reflexivity].
    intros Hd.
    exact (win32_after_open sys _ (mmapio_mode_parse mode_text) sz off
             [Win32.CreateFile _ _; Win32.Free] Hd).
  - intros wide Hd.
    exact (win32_after_open sys _ (mmapio_mode_parse mode_text) sz off
             [Win32.CreateFile _ _] Hd).
Qed.

Lemma win32_open_keeps_no_handle_witness :
  win32_closes 0x1a4
    (snd (run (Win32.mmapio_u8open Examples.windows [100] "r" 0 0)))
    = 1%nat.
Proof.
  assert (D : forall inherit protect high low,
             Win32.sys_CreateFileMappingA Examples.windows 0x1a4
               inherit protect high low <> 0x1a4).
  { intros inherit protect high low. simpl.
    destruct (protect =? 0); unfold NULL; lia. }
  pose proof (proj1 (proj2 (win32_open_keeps_no_handle Examples.windows
                              "r" 0 0)) [100]) as W.
  change (Win32.mmapio_u8towc Examples.windows [100])
    with (Some [100; 0]) in W.
  cbv beta iota in W. specialize (W D). destruct W as [_ W].
  change (fst (run (Win32.mmapio_u8open Examples.windows [100] "r" 0 0)))
    with (@None (mmapio_i Win32.mmapio_win32 Win32.event)) in W.
  exact W.
Defined.

(** A handle of a Win32 open function comes from a run of
    [mmapio_open_rest] on the file handle it holds. *)
Lemma win32_opened_run (sys : Win32.os) mode_text sz off m :
  Win32.opened sys mode_text sz off m ->
  exists log,
    run (Win32.mmapio_open_rest sys (Win32.fd (self m))
           (mmapio_mode_parse mode_text) sz off) = (Some m, log).
Proof.
  intros O. destruct (win32_opened_rest sys _ _ _ _ O) as (fd & l & l' & H).
  rewrite win32_open_rest_frame in H.
  destruct (run (Win32.mmapio_open_rest sys fd _ sz off)) as [r log] eqn:R.
  cbn [fst snd] in H. inversion H; subst r.
  destruct (win32_open_rest_success_log sys _ _ _ _ _ _ R)
    as (a & b & c & d & e & _ & _ & G).
  cbv zeta in G. destruct G as (_ & _ & -> & _).
  unfold Win32.initialize in *. cbn [self Win32.fd] in *.
  exists log. exact R.
Qed.

(** X21. Win32: a handle that an open function returns was asked for
    with a size other than zero when extend-to-end is unset, and with an
    offset that is not behind the end of the file the handle holds when
    it is set. *)
Theorem win32_open_checks_size_and_offset
  (sys : Win32.os) (mode_text : string) (sz off : Z)
  (m : mmapio_i Win32.mmapio_win32 Win32.event) :
  Win32.opened sys mode_text sz off m ->
  if is_set (end_ (mmapio_mode_parse mode_text))
  then off <= Win32.mmapio_file_size_e sys (Win32.fd (self m))
  else sz <> 0.
Proof.
  intros O. destruct (win32_opened_run sys _ _ _ _ O) as [log R].
  unfold run in R.
  destruct (win32_open_rest_ok sys _ _ _ _ _ _ _ R)
    as (sz' & a & b & c & d & S & _).
  apply win32_map_size_ok in S.
  destruct S as [_ [(E & L & _)|(E & N & _)]]; rewrite E; assumption.
Qed.

Lemma win32_open_checks_size_and_offset_witness : 100 <> 0.
Proof.
  apply (win32_open_checks_size_and_offset Examples.windows "r" 100 10
           Examples.windows_handle).
  apply Win32.by_open with (nm := "data.bin"%string)
                           (log := [Win32.CreateFile 2147483648 false;
                                    Win32.CreateFileMapping 420 false 2 0 4096;
                                    Win32.MapView 432 4 0 0 110]).
  reflexivity.
Defined.

(** X22. Extend-to-end maps the rest of the file. With ['e'] in the mode
    text the size argument is not looked at: a handle of a Win32 open
    function, and a handle of a Unix open function whose offset is not
    behind the end of the file, has the length of the file it holds
    less the offset. *)
Theorem extend_maps_the_rest_of_the_file
  (mode_text : string) (sz off : Z) :
  in_size_t sz -> in_size_t off ->
  is_set (end_ (mmapio_mode_parse mode_text)) = true ->
  (forall (usys : Unix.os) m,
     Unix.opened usys mode_text sz off m ->
     off <= Unix.mmapio_file_size_e usys (Unix.fd (self m)) ->
     mmapio_length m
       = Unix.mmapio_file_size_e usys (Unix.fd (self m)) - off) /\
  (forall (wsys : Win32.os) m,
     Win32.opened wsys mode_text sz off m ->
     mmapio_length m
       = Win32.mmapio_file_size_e wsys (Win32.fd (self m)) - off).
Proof.
  intros Hsz Hoff E. split.
  - intros usys m O L.
    destruct (unix_opened_rest usys _ _ _ _ O) as (fd & l & l' & H).
    pose proof (unix_open_rest_release_log usys fd
                  (mmapio_mode_parse mode_text) sz off l) as F.
    cbv zeta in F. rewrite H in F. cbn [fst snd] in F.
    destruct F as (_ & _ & F). rewrite F in L |- *.
    destruct (extend_length_is_rest_of_file usys Examples.windows fd
                (mmapio_mode_parse mode_text) sz off Hsz Hoff E) as [U _].
    exact (U m l l' L H).
  - intros wsys m O.
    destruct (win32_opened_run wsys _ _ _ _ O) as [log R].
    destruct (extend_length_is_rest_of_file Examples.linux wsys
                (Win32.fd (self m))
                (mmapio_mode_parse mode_text) sz off Hsz Hoff E) as [_ W].
    exact (proj2 (W m [] log R)).
Qed.

Lemma extend_maps_the_rest_of_the_file_witness :
  mmapio_length (Unix.initialize (Unix.mk_unix 0x7f3a00000000 4096 10 3))
    = 4096 - 10 /\
  mmapio_length
    (Win32.initialize (Win32.mk_win32 0x1f0000 4096 10 0x1b0 0x1a4))
    = 4096 - 10.
Proof.
  destruct (extend_maps_the_rest_of_the_file "re" 0 10) as [U W].
  - unfold in_size_t, SIZE_MAX. lia.
  - unfold in_size_t, SIZE_MAX. lia.
  - reflexivity.
  - split.
    + apply (U Examples.linux
               (Unix.initialize (Unix.mk_unix 0x7f3a00000000 4096 10 3))).
      * apply Unix.by_open with (nm := "data.bin"%string)
                                (log := [Unix.Open "data.bin" 524288;
                                         Unix.SetFd 3 1;
                                         Unix.Mmap 4096 1 1 3 0]).
        reflexivity.
      * unfold Unix.initialize. cbn [self Unix.fd].
        vm_compute. intros C. discriminate C.
    + apply (W Examples.windows
               (Win32.initialize
                  (Win32.mk_win32 0x1f0000 4096 10 0x1b0 0x1a4))).
      apply Win32.by_open with (nm := "data.bin"%string)
                               (log := [Win32.CreateFile 2147483648 false;
                                        Win32.CreateFileMapping 420 false 2 0 4096;
                                        Win32.MapView 432 4 0 0 4096]).
      reflexivity.
Defined.
